(** * django-form-base.component.ts: the form component of
      django-angular-dynamic-forms

    A shallow embedding of [DjangoFormBaseComponent]
    (src/lib/django-form/impl/django-form-base.component.ts) and the
    properties of its submission pipeline, its payload flattening, its
    action-list normalizer and its configuration resolver.

    Modelling conventions.
    - A JavaScript value is a primitive or a reference into a heap of
      objects; an object is the list of its own properties in own-property
      order.  All own properties are enumerable data properties, as in the
      value of a form group and in parsed JSON.  Property names are
      strings; names that look like array indices (which ECMAScript
      enumerates first, in numeric order) are not given that special
      order: the list order is creation order.
    - Methods that mutate objects pass the heap explicitly.  Recursion that
      JavaScript bounds only by its call stack takes a fuel argument;
      running out of fuel is a result of its own, never confused with a
      normal return.
    - Http calls and emitted events are recorded in a log carried by the
      component state. *)

From Stdlib Require Import ZArith Ascii String List Lia.
From stdpp Require Import gmap strings list.
#[local] Set Warnings "-clear-no-such-hyp".
Open Scope string_scope.
Open Scope list_scope.

(** ** Values, objects and the heap *)

Inductive prim : Type :=
| PUndefined
| PNull
| PBool (b : bool)
| PNum (n : Z)
| PStr (s : string).

(** Objects are named by their place in the heap. *)
Abbreviation loc := nat (only parsing).

Inductive value : Type :=
| VPrim (p : prim)
| VRef (l : loc).

#[global] Instance prim_eq_dec : EqDecision prim.
Proof. solve_decision. Defined.
#[global] Instance value_eq_dec : EqDecision value.
Proof. solve_decision. Defined.

(** An object: its own properties, in own-property order. *)
Abbreviation obj := (list (string * value)) (only parsing).

Definition undefined : value := VPrim PUndefined.

(** ToBoolean. *)
Definition truthy (v : value) : bool :=
  match v with
  | VRef _ => true
  | VPrim PUndefined | VPrim PNull => false
  | VPrim (PBool b) => b
  | VPrim (PNum n) => negb (Z.eqb n 0)
  | VPrim (PStr s) => negb (String.eqb s "")
  end.

Module Obj.

Section Properties.

(** The operations are those of the property list whatever a property
    holds: a value of the heap, or a subtree of a payload. *)
Context {V : Type}.
Implicit Type o : list (string * V).

(** Own-property lookup. *)
Fixpoint get (k : string) o : option V :=
  match o with
  | [] => None
  | (k', v) :: o' => if String.eqb k k' then Some v else get k o'
  end.

(** [o[k] = v]: an existing property keeps its place, a new one goes
    last. *)
Fixpoint set (k : string) (v : V) o : list (string * V) :=
  match o with
  | [] => [(k, v)]
  | (k', v') :: o' =>
      if String.eqb k k' then (k, v) :: o' else (k', v') :: set k v o'
  end.

(** [delete o[k]]. *)
Fixpoint delete (k : string) o : list (string * V) :=
  match o with
  | [] => []
  | (k', v') :: o' =>
      if String.eqb k k' then delete k o' else (k', v') :: delete k o'
  end.

(** [Object.getOwnPropertyNames(o)]. *)
Definition names o : list string := map fst o.

(** [{...a, ...b}] and [Object.assign(a, b)] on the property lists:
    the properties of [b] are written over [a], in order. *)
Definition assign (a b : list (string * V)) : list (string * V) :=
  fold_left (fun acc kv => set (fst kv) (snd kv) acc) b a.

End Properties.

(** [o[k]]: a missing property reads as [undefined]. *)
Definition read (o : obj) (k : string) : value :=
  default undefined (get k o).

End Obj.

(** ** Results of running a method *)

Inductive js_error : Type :=
| TypeError
| Error (message : string).

(** A method returns with a new state, throws leaving a state behind, is
    stuck on a reference to no object (not a JavaScript heap), or has
    run out of fuel. *)
Inductive run (S : Type) : Type :=
| Returned (s : S)
| Thrown (e : js_error) (s : S)
| Stuck
| OutOfFuel.
Arguments Returned {S} s.
Arguments Thrown {S} e s.
Arguments Stuck {S}.
Arguments OutOfFuel {S}.

Definition bind {S : Type} (r : run S) (k : S -> run S) : run S :=
  match r with
  | Returned s => k s
  | Thrown e s => Thrown e s
  | Stuck => Stuck
  | OutOfFuel => OutOfFuel
  end.

Notation "r >>> k" := (bind r k) (at level 61, left associativity).

(** [for (const k of ks) body(k)] over a state. *)
Fixpoint for_each {S : Type} (ks : list string) (body : string -> S -> run S)
    (s : S) : run S :=
  match ks with
  | [] => Returned s
  | k :: ks' => body k s >>> for_each ks' body
  end.

(** ** Flattening *)

(** [name && name.startsWith('generated_')]. *)
Definition is_marker (name : option string) : bool :=
  match name with
  | None => false
  | Some n => negb (String.eqb n "") && String.prefix "generated_" n
  end.

(** The second loop of [_flatten] and the [delete] after it:
    [for (const k of Object.getOwnPropertyNames(current)) parent[k] = current[k];
     delete parent[name]].  With a [null] parent the first property access
    throws. *)
Definition hoist (name : string) (current : loc) (parent : option loc)
    (h : gmap loc obj) : run (gmap loc obj) :=
  match parent with
  | None => Thrown TypeError h
  | Some p =>
      match h !! current with
      | None => Stuck
      | Some o =>
          for_each (Obj.names o)
            (fun k h1 =>
               match h1 !! current, h1 !! p with
               | Some oc, Some op =>
                   Returned (<[p := Obj.set k (Obj.read oc k) op]> h1)
               | _, _ => Stuck
               end) h
          >>> fun h2 =>
            match h2 !! p with
            | Some op => Returned (<[p := Obj.delete name op]> h2)
            | None => Stuck
            end
      end
  end.

(** [_flatten(name, current, parent)] (lines 208-222). *)
Fixpoint _flatten (fuel : nat) (name : option string) (current : value)
    (parent : option loc) (h : gmap loc obj) : run (gmap loc obj) :=
  match fuel with
  | O => OutOfFuel
  | S fuel' =>
      match current with
      | VPrim _ => Returned h
      | VRef c =>
          match h !! c with
          | None => Stuck
          | Some o =>
              for_each (Obj.names o)
                (fun k h1 =>
                   match h1 !! c with
                   | Some oc =>
                       _flatten fuel' (Some k) (Obj.read oc k) (Some c) h1
                   | None => Stuck
                   end) h
              >>> fun h2 =>
                match name with
                | Some n =>
                    if is_marker name then hoist n c parent h2
                    else Returned h2
                | None => Returned h2
                end
          end
      end
  end.

(** ** Payload trees

    The value of a form is a tree: a field holds a primitive or a nested
    group of fields.  [alloc] builds the objects of a tree in a heap, as
    an object literal does, and [extract] reads the tree below a value
    back. *)

#[local] Unset Elimination Schemes.
Inductive tree : Type :=
| TPrim (p : prim)
| TObj (fs : list (string * tree)).
#[local] Set Elimination Schemes.

Fixpoint alloc (t : tree) (h : gmap loc obj) : value * gmap loc obj :=
  match t with
  | TPrim p => (VPrim p, h)
  | TObj fs =>
      let '(o, h1) :=
        (fix fields (fs : list (string * tree)) (h : gmap loc obj)
           : obj * gmap loc obj :=
           match fs with
           | [] => ([], h)
           | (k, t') :: fs' =>
               let '(v, h') := alloc t' h in
               let '(o, h'') := fields fs' h' in
               ((k, v) :: o, h'')
           end) fs h in
      let l := fresh (dom h1) in
      (VRef l, <[l := o]> h1)
  end.

(** The objects of the fields of an object literal, as [alloc] builds
    them. *)
Fixpoint alloc_fields (fs : list (string * tree)) (h : gmap loc obj)
    : obj * gmap loc obj :=
  match fs with
  | [] => ([], h)
  | (k, t') :: fs' =>
      let '(v, h') := alloc t' h in
      let '(o, h'') := alloc_fields fs' h' in
      ((k, v) :: o, h'')
  end.

Fixpoint extract (fuel : nat) (h : gmap loc obj) (v : value) : option tree :=
  match fuel with
  | O => None
  | S fuel' =>
      match v with
      | VPrim p => Some (TPrim p)
      | VRef l =>
          o ← h !! l;
          fs ← mapM (fun kv => t ← extract fuel' h (snd kv); Some (fst kv, t)) o;
          Some (TObj fs)
      end
  end.

(** Flattening a payload given as a tree: the top call of [submitted],
    [this._flatten(null, value, null)], on the objects of the tree. *)
Definition flatten_payload (fuel : nat) (t : tree) : option tree :=
  let '(v, h) := alloc t ∅ in
  match _flatten fuel None v None h with
  | Returned h' => extract fuel h' v
  | _ => None
  end.

(** ** The component *)

(** Modelled from the spec: the interface [DjangoFormConfig] of
    ./django-form-iface, which is not among the sources.  The spec gives a
    configuration a remote target, a method ("post", "patch" or other),
    whether initial data is required, the initial data, and further fields
    the backend defines. *)
Record DjangoFormConfig : Type := {
  django_url : option string;
  method : option string;
  has_initial_data : bool;
  initial_data : option value;
  backend_fields : obj
}.

(** [extra_form_data]: absent, an [HttpParams] (each key with its list of
    values) or a plain object. *)
Inductive extra_data : Type :=
| ExtraAbsent
| ExtraParams (ps : list (string * list string))
| ExtraObject (l : loc).

Inductive event : Type :=
| HttpGet (url : option string)
| HttpPost (url : string) (body : obj)
| HttpPatch (url : string) (body : obj)
| SnackBarOpen (message action : string)
| EmitSubmit (data : value) (response : option value)
| EmitCancel (data : value).

Record component : Type := {
  heap : gmap loc obj;
  form_value : loc;
  extra_form_data : extra_data;
  log : list event
}.

Definition with_heap (c : component) (h : gmap loc obj) : component :=
  {| heap := h; form_value := form_value c;
     extra_form_data := extra_form_data c; log := log c |}.

Definition record (e : event) (c : component) : component :=
  {| heap := heap c; form_value := form_value c;
     extra_form_data := extra_form_data c; log := log c ++ [e] |}.

(** A string is truthy when it is not empty. *)
Definition present (s : option string) : option string :=
  match s with
  | Some u => if String.eqb u "" then None else Some u
  | None => None
  end.

(** [HttpParams.get(k)]: the first value of the key, or [null]. *)
Fixpoint params_get (k : string) (ps : list (string * list string)) : value :=
  match ps with
  | [] => VPrim PNull
  | (k', vs) :: ps' =>
      if String.eqb k k' then
        match vs with
        | v :: _ => VPrim (PStr v)
        | [] => VPrim PNull
        end
      else params_get k ps'
  end.

(** The local [extra] of [submit_to_django] (lines 167-175), as the
    properties the spread [...extra] copies. *)
Definition extra_of (c : component) : option obj :=
  match extra_form_data c with
  | ExtraAbsent => Some []
  | ExtraParams ps =>
      Some (fold_left (fun extra k => Obj.set k (params_get k ps) extra)
              (map fst ps) [])
  | ExtraObject l => heap c !! l
  end.

(** [{...extra, ...data}]. *)
Definition request_body (extra data : obj) : obj :=
  Obj.assign (Obj.assign [] extra) data.

Section Submission.

(** What the stream of a request delivers to its subscriber after
    [catchError]: the response of the server, or on a transport failure
    whatever the stream returned by
    [error_service.show_communication_error] delivers. *)
Variable delivered : event -> list value.

(** The subscriber of the request (lines 190-199). *)
Definition on_response (data : loc) (c : component) (response : value)
    : component :=
  record (EmitSubmit (VRef data) (Some response))
    (record (SnackBarOpen "Saved" "Dismiss") c).

(** [submit_to_django(data)] (lines 165-206), from the moment
    [config$.first()] delivers [config]. *)
Definition submit_to_django (config : DjangoFormConfig) (data : loc)
    (c : component) : run component :=
  match present (django_url config) with
  | Some url =>
      let send (request : obj -> event) :=
        match extra_of c, heap c !! data with
        | Some extra, Some payload =>
            let call := request (request_body extra payload) in
            Returned (fold_left (on_response data) (delivered call)
                        (record call c))
        | _, _ => Stuck
        end in
      match method config with
      | Some m =>
          if String.eqb m "post" then send (HttpPost url)
          else if String.eqb m "patch" then send (HttpPatch url)
          else Thrown (Error ("Unimplemented method " ++ m)%string) c
      | None => Thrown (Error "Unimplemented method undefined") c
      end
  | None => Returned (record (EmitSubmit (VRef data) None) c)
  end.

(** [submitted(button_id, is_cancel)] (lines 151-163).  An absent
    [button_id] is [None]. *)
Definition submitted (fuel : nat) (config : DjangoFormConfig)
    (button_id : option string) (is_cancel : bool) (c : component)
    : run component :=
  match heap c !! form_value c with
  | None => Stuck
  | Some live =>
      let value := fresh (dom (heap c)) in
      let h0 := <[value := Obj.assign [] live]> (heap c) in
      match _flatten fuel None (VRef value) None h0 with
      | Returned h1 =>
          match h1 !! value with
          | None => Stuck
          | Some o =>
              let h2 :=
                match present button_id with
                | Some b => <[value := Obj.set b (VPrim (PBool true)) o]> h1
                | None => h1
                end in
              if is_cancel then
                Returned (record (EmitCancel (VRef value)) (with_heap c h2))
              else submit_to_django config value (with_heap c h2)
          end
      | Thrown e h1 => Thrown e (with_heap c h1)
      | Stuck => Stuck
      | OutOfFuel => OutOfFuel
      end
  end.

End Submission.

(** ** The action list *)

(** An action descriptor as [_generate_actions] tells them apart: an array,
    a primitive, or any other object. *)
Inductive descriptor : Type :=
| DArray (items : list value)
| DPrim (p : prim)
| DObject (o : obj).

(** [action[i]] on an array. *)
Definition item (items : list value) (i : nat) : value :=
  default undefined (items !! i).

(** [action.cancel]: reading a property of [null] or [undefined] throws;
    an array of items and a string, number or boolean have no such
    property. *)
Definition cancel_of (action : descriptor) : option value :=
  match action with
  | DArray _ => Some undefined
  | DPrim PUndefined | DPrim PNull => None
  | DPrim _ => Some undefined
  | DObject o => Some (Obj.read o "cancel")
  end.

(** The locals [action_id], [action_label], [action_cancel] and
    [action_color] at line 83, after the branches of lines 67-82. *)
Record action_locals : Type := {
  action_id : value;
  action_label : value;
  action_cancel : value;
  action_color : value
}.

Definition locals_of (action : descriptor) : action_locals :=
  match action with
  | DArray items =>
      let id := item items 0 in
      let label := item items 1 in
      {| action_id := id;
         action_label := if decide (label = undefined) then id else label;
         action_cancel := VPrim (PBool false);
         action_color := VPrim (PStr "primary") |}
  | DPrim p =>
      {| action_id := VPrim p; action_label := VPrim p;
         action_cancel := VPrim (PBool false);
         action_color := VPrim (PStr "primary") |}
  | DObject o =>
      {| action_id := Obj.read o "id"; action_label := Obj.read o "label";
         action_cancel := Obj.read o "cancel";
         action_color :=
           if truthy (Obj.read o "color") then Obj.read o "color"
           else VPrim (PStr "primary") |}
  end.

(** The body of the loop of [_generate_actions] (lines 62-88): the object
    pushed for one action, or [None] when building it throws.  The pushed
    [cancel] is [action.cancel], not the local [action_cancel]. *)
Definition generate_action (action : descriptor) : option obj :=
  let locals := locals_of action in
  match cancel_of action with
  | Some cancel =>
      Some [("id", action_id locals); ("label", action_label locals);
            ("color", action_color locals); ("cancel", cancel)]
  | None => None
  end.

(** [_generate_actions(actions)] (lines 58-92); a falsy [actions] is
    [None].  The state is [ret]. *)
Fixpoint generate_from (actions : list descriptor) (ret : list obj)
    : run (list obj) :=
  match actions with
  | [] => Returned ret
  | action :: actions' =>
      match generate_action action with
      | Some o => generate_from actions' (ret ++ [o])
      | None => Thrown TypeError ret
      end
  end.

Definition _generate_actions (actions : option (list descriptor))
    : run (list obj) :=
  match actions with
  | Some l => generate_from l []
  | None => Returned []
  end.

(** ** The configuration stream of [ngOnInit]

    An observable is modelled by the list of the values it delivers to
    one subscriber, in order; [filter], [map] and [mergeMap] are the list
    functions, [partition] is the two [filter]s, and [merge] of the two
    branches delivers the first branch and then the second. *)

Section Resolver.

(** What [httpClient.get(url).pipe(catchError(...))] delivers: the
    response, or on a transport failure what the stream of the error
    service delivers. *)
Variable fetched : option string -> list value.
Variable initial_data_transformation : value -> value.
Variable config_transformation : DjangoFormConfig -> DjangoFormConfig.




End Resolver.

(** ** Notions used by the properties *)

(** Own property names are distinct in every object of the heap. *)
Definition names_distinct (h : gmap loc obj) : Prop :=
  map_Forall (fun _ o => NoDup (Obj.names o)) h.

#[global] Instance names_distinct_dec h : Decision (names_distinct h).
Proof. unfold names_distinct. apply _. Defined.


Definition str (s : string) : value := VPrim (PStr s).
Definition int (n : Z) : value := VPrim (PNum n).

(** What the action list promises of the record [r] made for an action. *)
Inductive describes : descriptor -> obj -> Prop :=
| describes_pair items r :
    Obj.read r "id" = item items 0 ->
    Obj.read r "label" =
      (if decide (item items 1 = undefined) then item items 0
       else item items 1) ->
    Obj.read r "color" = str "primary" ->
    describes (DArray items) r
| describes_scalar p r :
    Obj.read r "id" = VPrim p ->
    Obj.read r "label" = VPrim p ->
    Obj.read r "color" = str "primary" ->
    describes (DPrim p) r
| describes_object o r :
    Obj.read r "id" = Obj.read o "id" ->
    Obj.read r "label" = Obj.read o "label" ->
    Obj.read r "color" =
      (if truthy (Obj.read o "color") then Obj.read o "color"
       else str "primary") ->
    Obj.read r "cancel" = Obj.read o "cancel" ->
    describes (DObject o) r.

(** A descriptor whose properties can be read: anything but [null] and
    [undefined]. *)
Definition readable (action : descriptor) : Prop :=
  action <> DPrim PNull /\ action <> DPrim PUndefined.




(** A submission where the extra parameters and the payload share the
    key "name". *)
Definition shared_key_component : component :=
  {| heap := {[ 0 := [("token", str "t"); ("name", str "from-extra")];
                1 := [("name", str "from-form")] ]};
     form_value := 1;
     extra_form_data := ExtraObject 0;
     log := [] |}.

Definition post_config : DjangoFormConfig :=
  {| django_url := Some "/api/item/"; method := Some "post";
     has_initial_data := false; initial_data := None;
     backend_fields := [] |}.



(** The heap is acyclic below every object: [rk] ranks each object above
    the objects its properties refer to, and every reference is to an
    object of the heap. *)
Definition ranked (rk : loc -> nat) (h : gmap loc obj) : Prop :=
  map_Forall
    (fun l o =>
       Forall (fun kv => match snd kv with
                         | VRef l' => is_Some (h !! l') /\ rk l' < rk l
                         | VPrim _ => True
                         end) o) h.

#[global] Instance ranked_dec rk h : Decision (ranked rk h).
Proof.
  unfold ranked. apply map_Forall_dec. intros l o.
  apply Forall_dec. intros [k [p|l']]; simpl; apply _.
Defined.

(** The fuel a value needs. *)
Definition fuel_of (rk : loc -> nat) (v : value) : nat :=
  match v with
  | VPrim _ => 1
  | VRef l => S (S (rk l))
  end.

(** A live form value with a marker two levels down:
    [{group: {generated_x: {b: 1}}}]. *)
Definition nested_marker_component : component :=
  {| heap := {[ 0 := [("b", int 1)];
                1 := [("generated_x", VRef 0)];
                2 := [("group", VRef 1)] ]};
     form_value := 2;
     extra_form_data := ExtraAbsent;
     log := [] |}.

(** ** Payload trees: notions *)

(** The fuel [_flatten] needs on the objects of a tree. *)
Fixpoint fits (fuel : nat) (t : tree) : Prop :=
  match fuel with
  | O => False
  | S fuel' =>
      match t with
      | TPrim _ => True
      | TObj fs => Forall (fun kt => fits fuel' (snd kt)) fs
      end
  end.

Fixpoint depth (t : tree) : nat :=
  match t with
  | TPrim _ => 0
  | TObj fs => S (list_max (map (fun kt => depth (snd kt)) fs))
  end.

(** Own property names are distinct in every object of the tree. *)
Fixpoint distinct_names (t : tree) : bool :=
  match t with
  | TPrim _ => true
  | TObj fs =>
      bool_decide (NoDup (Obj.names fs))
      && forallb (fun kt => distinct_names (snd kt)) fs
  end.

(** No key of the tree, at any depth, is a marker. *)
Fixpoint marker_free (t : tree) : bool :=
  match t with
  | TPrim _ => true
  | TObj fs =>
      forallb (fun kt => negb (is_marker (Some (fst kt)))
                         && marker_free (snd kt)) fs
  end.

(** A field that flattening hoists: an object under a marker name. *)
Definition hoists (kt : string * tree) : bool :=
  is_marker (Some (fst kt))
  && match snd kt with TObj _ => true | TPrim _ => false end.

(** No object of the tree, at any depth, has a field left to hoist. *)
Fixpoint resolved (t : tree) : bool :=
  match t with
  | TPrim _ => true
  | TObj fs => forallb (fun kt => negb (hoists kt) && resolved (snd kt)) fs
  end.

Definition fields_of (t : tree) : list (string * tree) :=
  match t with
  | TObj fs => fs
  | TPrim _ => []
  end.

(** The fields that stay in an object, and the fields that come up from
    its hoisted children, in order. *)
Definition kept (fs : list (string * tree)) : list (string * tree) :=
  List.filter (fun kt => negb (hoists kt)) fs.

Definition lifted (fs : list (string * tree)) : list (string * tree) :=
  flat_map (fun kt => if hoists kt then fields_of (snd kt) else []) fs.

(** Flattening as the specification words it, bottom-up: the children are
    flattened first; then every child object under a marker name gives its
    fields to the parent and its own key goes. *)
Fixpoint spec_flatten (t : tree) : tree :=
  match t with
  | TPrim p => TPrim p
  | TObj fs =>
      let fs' := map (fun kt => (fst kt, spec_flatten (snd kt))) fs in
      TObj (kept fs' ++ lifted fs')
  end.

(** The fields of an object, each flattened. *)
Definition spec_fields (fs : list (string * tree)) : list (string * tree) :=
  map (fun kt => (fst kt, spec_flatten (snd kt))) fs.

(** No hoisted field meets a field of the same name: in every object the
    names of the fields and of the fields coming up are all distinct. *)
Fixpoint collision_free (t : tree) : bool :=
  match t with
  | TPrim _ => true
  | TObj fs =>
      bool_decide
        (NoDup (Obj.names fs ++
                Obj.names (lifted (map (fun kt => (fst kt, spec_flatten (snd kt)))
                                     fs))))
      && forallb (fun kt => collision_free (snd kt)) fs
  end.

(** [_flatten] read on trees, where a property holds its subtree: the loop
    over the names of an object, each child flattened with the fuel left
    and, under a marker name, written over the object before its key is
    deleted. *)
Definition step_tree
    (visit : list (string * tree) -> list (string * tree))
    (acc : list (string * tree)) (k : string) : list (string * tree) :=
  match Obj.get k acc with
  | Some (TObj cs) =>
      if is_marker (Some k) then Obj.delete k (Obj.assign acc (visit cs))
      else Obj.set k (TObj (visit cs)) acc
  | _ => acc
  end.

Fixpoint visit_tree (fuel : nat) (fs : list (string * tree))
    : list (string * tree) :=
  match fuel with
  | O => fs
  | S fuel' => fold_left (step_tree (visit_tree fuel')) (Obj.names fs) fs
  end.

Definition flatten_tree (fuel : nat) (t : tree) : tree :=
  match t with
  | TPrim p => TPrim p
  | TObj fs => TObj (visit_tree fuel fs)
  end.

(** The value [v] stands for the tree [t] in the heap [h], on objects of
    [F] only, none of them used twice. *)
Inductive repr (h : gmap loc obj) : value -> tree -> gset loc -> Prop :=
| repr_prim p F : repr h (VPrim p) (TPrim p) F
| repr_obj l o fs F :
    l ∈ F -> h !! l = Some o -> NoDup (Obj.names o) ->
    repr_fields h o fs (F ∖ {[l]}) ->
    repr h (VRef l) (TObj fs) F
with repr_fields (h : gmap loc obj)
  : list (string * value) -> list (string * tree) -> gset loc -> Prop :=
| repr_nil F : repr_fields h [] [] F
| repr_cons k v t o fs F1 F2 F :
    repr h v t F1 -> repr_fields h o fs F2 ->
    F1 ## F2 -> F1 ∪ F2 ⊆ F ->
    repr_fields h ((k, v) :: o) ((k, t) :: fs) F.

Scheme repr_mutual := Minimality for repr Sort Prop
  with repr_fields_mutual := Minimality for repr_fields Sort Prop.

(** The payloads of the examples. *)
Definition payload_one : tree :=
  TObj [("a", TPrim (PNum 1));
        ("generated_x", TObj [("b", TPrim (PNum 2)); ("c", TPrim (PNum 3))])].

Definition payload_two : tree :=
  TObj [("generated_x", TObj [("generated_y", TObj [("b", TPrim (PNum 1))])])].

(** [value[button_id] = true] on the fields of a tree, for a present
    action id. *)
Definition with_action (button_id : option string)
    (fs : list (string * tree)) : list (string * tree) :=
  match present button_id with
  | Some b => Obj.set b (TPrim (PBool true)) fs
  | None => fs
  end.

(** A live form value that is the first payload of the examples. *)
Definition payload_one_component : component :=
  {| heap := {[ 0 := [("b", int 2); ("c", int 3)];
                1 := [("a", int 1); ("generated_x", VRef 0)] ]};
     form_value := 1;
     extra_form_data := ExtraAbsent;
     log := [] |}.

(** Every field of an object fits the fuel. *)
Definition all_fit (fuel : nat) (fs : list (string * tree)) : Prop :=
  Forall (fun kt => fits fuel (snd kt)) fs.

(** What a call [_flatten(name, v, parent)] made by the loop of [_flatten]
    does, with [fuel], when [v] stands for a tree and the parent object
    is not part of it: the objects of the tree come to stand for the
    flattened tree, and under a marker name the properties of [v] are
    written over the parent and the name deleted from it. *)
Definition child_spec (fuel : nat) : Prop :=
  forall name v p (h : gmap loc obj) t Fv op,
    repr h v t Fv -> fits fuel t -> p ∉ Fv -> h !! p = Some op ->
    exists hm,
      repr hm v (flatten_tree fuel t) Fv
      /\ (forall l, l ∉ Fv -> hm !! l = h !! l)
      /\ _flatten fuel (Some name) v (Some p) h =
           Returned
             (match v with
              | VRef x =>
                  if is_marker (Some name) then
                    <[p := Obj.delete name
                             (Obj.assign op (default [] (hm !! x)))]> hm
                  else hm
              | VPrim _ => hm
              end).

(** ** The form description

    [_download_django_form] (lines 129-149). *)

(** [s.endsWith('/')]. *)
Fixpoint ends_with_slash (s : string) : bool :=
  match s with
  | EmptyString => false
  | String c EmptyString => Ascii.eqb c "/"%char
  | String _ s' => ends_with_slash s'
  end.

(** The local [django_form_url] at line 135. *)
Definition form_url (url : string) : string :=
  ((if ends_with_slash url then url else url ++ "/") ++ "form/")%string.

Section Download.

(** What [httpClient.get(url, {withCredentials, params})] followed by
    [catchError] delivers: the configuration sent by the server, or on a
    transport failure what the stream of the error service delivers. *)
Variable delivered_form : string -> extra_data -> list obj.

(** [{django_url: django_url, ...config}]. *)
Definition with_django_url (url : string) (config : obj) : obj :=
  Obj.assign [("django_url", VPrim (PStr url))] config.

(** [_download_django_form(django_url)]: the request issued, as its url and
    its [params], and the configurations delivered. *)
Definition _download_django_form (url : string) (c : component)
    : (string * extra_data) * list obj :=
  ((form_url url, extra_form_data c),
   map (with_django_url url)
     (delivered_form (form_url url) (extra_form_data c))).

End Download.

(** ** Further notions *)

(** The events that one delivered response causes (lines 190-199). *)
Definition response_events (data : loc) (response : value) : list event :=
  [SnackBarOpen "Saved" "Dismiss"; EmitSubmit (VRef data) (Some response)].


(** The extra parameters, when an object, are an object of the heap that
    is no part of the form value. *)
Definition extra_apart (c : component) (F : gset loc) : Prop :=
  match extra_form_data c with
  | ExtraObject l => (l ∉ F) /\ is_Some (heap c !! l)
  | _ => True
  end.

(** A form value whose group holds a field named as a field beside it:
    [{name: "outer", generated_g: {name: "inner", extra: 1}}]. *)
Definition colliding_payload : tree :=
  TObj [("name", TPrim (PStr "outer"));
        ("generated_g", TObj [("name", TPrim (PStr "inner"));
                              ("extra", TPrim (PNum 1))])].

(** An object that refers to itself: [o.self = o]. *)
Definition self_heap : gmap loc obj :=
  {[ 0 := [("self", VRef 0); ("a", int 1)] ]}.

(** The primitive fields of a tree, each with the names on its way from
    the root; with [skip] the names of the fields that flattening hoists
    are left out of the way. *)
Fixpoint leaves (skip : bool) (t : tree) : list (list string * prim) :=
  match t with
  | TPrim p => [([], p)]
  | TObj fs =>
      flat_map
        (fun kt =>
           map (fun lp => (if skip && hoists kt then fst lp
                           else fst kt :: fst lp, snd lp))
             (leaves skip (snd kt)))
        fs
  end.

(** Case analysis on every comparison of names in the goal. *)
Ltac eqb_cases :=
  repeat match goal with
         | |- context [String.eqb ?a ?b] =>
             destruct (String.eqb_spec a b); subst; simpl; try congruence
         end.

(** * Properties *)

(** ** Property lists *)

Section ObjLemmas.
Context {V : Type}.
Implicit Type o : list (string * V).

Lemma get_set k k' (v : V) o :
  Obj.get k (Obj.set k' v o) =
    if String.eqb k k' then Some v else Obj.get k o.
Proof.
  induction o as [|[k0 v0] o IH]; simpl.
  - destruct (String.eqb_spec k k'); reflexivity.
  - destruct (String.eqb_spec k' k0) as [->|Hne]; simpl.
    + destruct (String.eqb_spec k k0); reflexivity.
    + rewrite IH. destruct (String.eqb_spec k k0) as [->|];
        destruct (String.eqb_spec k0 k') as [->|]; congruence.
Qed.


Lemma get_None_names k o : k ∉ Obj.names o -> Obj.get k o = None.
Proof.
  induction o as [|[k0 v0] o IH]; simpl; intros Hk; [reflexivity|].
  apply not_elem_of_cons in Hk as [Hne Hk].
  destruct (String.eqb_spec k k0); [contradiction|auto].
Qed.

Lemma get_None_names_inv k o : Obj.get k o = None -> k ∉ Obj.names o.
Proof.
  unfold Obj.names. induction o as [|[k0 v0] o IH]; simpl.
  - intros _. apply not_elem_of_nil.
  - destruct (String.eqb_spec k k0) as [->|Hne]; [discriminate|].
    intros Hget [->|Hin]%elem_of_cons; [done|]. by apply IH.
Qed.

Lemma get_Some_names k o (v : V) : Obj.get k o = Some v -> k ∈ Obj.names o.
Proof.
  induction o as [|[k0 v0] o IH]; simpl; [discriminate|].
  destruct (String.eqb_spec k k0) as [->|]; intros H.
  - apply list_elem_of_here.
  - apply list_elem_of_further; auto.
Qed.

Lemma get_assign k (a b : list (string * V)) :
  NoDup (Obj.names b) ->
  Obj.get k (Obj.assign a b) =
    match Obj.get k b with Some v => Some v | None => Obj.get k a end.
Proof.
  unfold Obj.assign. revert a.
  induction b as [|[k0 v0] b IH]; simpl; intros a Hnd; [reflexivity|].
  apply NoDup_cons in Hnd as [Hk0 Hnd].
  rewrite IH by assumption. rewrite get_set.
  destruct (String.eqb_spec k k0) as [->|].
  - rewrite (get_None_names k0 b) by assumption. reflexivity.
  - reflexivity.
Qed.

Lemma names_set k (v : V) o :
  Obj.names (Obj.set k v o) =
    if decide (k ∈ Obj.names o) then Obj.names o else Obj.names o ++ [k].
Proof.
  unfold Obj.names.
  induction o as [|[k0 v0] o IH]; cbn [Obj.set map fst].
  - destruct (decide (k ∈ [])) as [Hin|]; [|reflexivity].
    by apply not_elem_of_nil in Hin.
  - destruct (String.eqb_spec k k0) as [->|Hne]; cbn [map fst].
    + destruct (decide (k0 ∈ k0 :: map fst o)) as [|Hin]; [reflexivity|].
      exfalso. apply Hin. left.
    + rewrite IH.
      destruct (decide (k ∈ map fst o)), (decide (k ∈ k0 :: map fst o));
        try reflexivity; exfalso; set_solver.
Qed.

Lemma NoDup_names_set k (v : V) o :
  NoDup (Obj.names o) -> NoDup (Obj.names (Obj.set k v o)).
Proof.
  intros Hnd. rewrite names_set. destruct (decide _) as [|Hk]; [exact Hnd|].
  apply NoDup_app. split; [exact Hnd|]. split.
  - intros x Hx Hx'%list_elem_of_singleton. subst. contradiction.
  - apply NoDup_singleton.
Qed.

Lemma NoDup_names_assign (a b : list (string * V)) :
  NoDup (Obj.names a) -> NoDup (Obj.names (Obj.assign a b)).
Proof.
  unfold Obj.assign. revert a.
  induction b as [|[k0 v0] b IH]; simpl; intros a Hnd; [exact Hnd|].
  apply IH, NoDup_names_set, Hnd.
Qed.

End ObjLemmas.

(** ** Submission against a configuration *)

Lemma names_distinct_extra c extra :
  names_distinct (heap c) -> extra_of c = Some extra ->
  NoDup (Obj.names extra).
Proof.
  unfold extra_of. intros Hwf.
  destruct (extra_form_data c) as [|ps|l]; intros Hex.
  - injection Hex as <-. apply NoDup_nil_2.
  - injection Hex as <-.
    generalize (map fst ps). intros ks.
    assert (Hgen : forall acc : obj, NoDup (Obj.names acc) ->
      NoDup (Obj.names
        (fold_left (fun extra k => Obj.set k (params_get k ps) extra) ks acc))).
    { induction ks as [|k ks IH]; simpl; intros acc Hacc; [exact Hacc|].
      apply IH, NoDup_names_set, Hacc. }
    apply Hgen, NoDup_nil_2.
  - exact (Hwf l extra Hex).
Qed.

Lemma get_request_body k extra payload :
  NoDup (Obj.names extra) -> NoDup (Obj.names payload) ->
  Obj.get k (request_body extra payload) =
    match Obj.get k payload with
    | Some v => Some v
    | None => Obj.get k extra
    end.
Proof.
  intros He Hp. unfold request_body.
  rewrite get_assign by exact Hp.
  destruct (Obj.get k payload); [reflexivity|].
  rewrite get_assign by exact He.
  destruct (Obj.get k extra); reflexivity.
Qed.

(** C1, as the code has it: with a remote target and the method "post" or
    "patch", [submit_to_django] issues one request whose body holds, under
    every key, the value of the payload when the payload has the key, and
    the value of the extra parameters otherwise.  On a key present in both
    the payload wins. *)
Theorem submit_body_payload_over_extra
    (delivered : event -> list value) (config : DjangoFormConfig)
    (data : loc) (c : component) (url m : string) (extra payload : obj) :
  present (django_url config) = Some url ->
  method config = Some m ->
  m = "post" \/ m = "patch" ->
  names_distinct (heap c) ->
  extra_of c = Some extra ->
  heap c !! data = Some payload ->
  exists body,
    let call := if String.eqb m "post" then HttpPost url body
                else HttpPatch url body in
    submit_to_django delivered config data c =
      Returned (fold_left (on_response data) (delivered call) (record call c))
    /\ forall k,
         Obj.get k body =
           match Obj.get k payload with
           | Some v => Some v
           | None => Obj.get k extra
           end.
Proof.
  intros Hurl Hm Hpp Hwf Hex Hpay.
  exists (request_body extra payload). split.
  - unfold submit_to_django. rewrite Hurl, Hm, Hex, Hpay.
    destruct Hpp as [-> | ->]; reflexivity.
  - intros k. apply get_request_body.
    + exact (names_distinct_extra c extra Hwf Hex).
    + exact (Hwf data payload Hpay).
Qed.

Lemma submit_body_payload_over_extra_witness :
  exists body,
    let call := if String.eqb "post" "post" then HttpPost "/api/item/" body
                else HttpPatch "/api/item/" body in
    submit_to_django (fun _ => []) post_config 1 shared_key_component =
      Returned (fold_left (on_response 1) [] (record call shared_key_component))
    /\ forall k,
         Obj.get k body =
           match Obj.get k [("name", str "from-form")] with
           | Some v => Some v
           | None => Obj.get k [("token", str "t"); ("name", str "from-extra")]
           end.
Proof.
  apply (submit_body_payload_over_extra (fun _ => []) post_config 1
           shared_key_component "/api/item/" "post"
           [("token", str "t"); ("name", str "from-extra")]
           [("name", str "from-form")]).
  - reflexivity.
  - reflexivity.
  - left. reflexivity.
  - apply (bool_decide_unpack (names_distinct _)). vm_compute. exact I.
  - reflexivity.
  - reflexivity.
Defined.

(** C1, as stated, fails: the extra parameters and the payload both hold
    "name", and the body posted carries the value of the payload. *)
Lemma submit_body_extra_loses :
  let body := [("token", str "t"); ("name", str "from-form")] in
  submit_to_django (fun _ => []) post_config 1 shared_key_component =
    Returned (record (HttpPost "/api/item/" body) shared_key_component)
  /\ (exists extra, extra_of shared_key_component = Some extra
        /\ Obj.get "name" extra = Some (str "from-extra")
        /\ Obj.get "name" body <> Obj.get "name" extra)
  /\ (exists payload, heap shared_key_component !! 1 = Some payload
        /\ Obj.get "name" payload = Some (str "from-form")
        /\ Obj.get "name" body = Obj.get "name" payload).
Proof.
  split; [reflexivity|]. split.
  - eexists. split; [reflexivity|]. split; [reflexivity|]. discriminate.
  - eexists. split; [reflexivity|]. split; reflexivity.
Qed.

(** C4: with a remote target and a method that is neither "post" nor
    "patch", [submit_to_django] throws an error and leaves the component,
    its log included, as it was: no request has been issued and nothing has
    been emitted. *)
Theorem unsupported_method_throws
    (delivered : event -> list value) (config : DjangoFormConfig)
    (data : loc) (c : component) (url : string) :
  present (django_url config) = Some url ->
  method config <> Some "post" ->
  method config <> Some "patch" ->
  exists message,
    submit_to_django delivered config data c = Thrown (Error message) c.
Proof.
  intros Hurl Hpost Hpatch. unfold submit_to_django. rewrite Hurl.
  destruct (method config) as [m|]; [|eexists; reflexivity].
  destruct (String.eqb_spec m "post") as [->|_]; [congruence|].
  destruct (String.eqb_spec m "patch") as [->|_]; [congruence|].
  eexists; reflexivity.
Qed.

Lemma unsupported_method_throws_witness :
  exists message,
    submit_to_django (fun _ => [int 1])
      {| django_url := Some "/api/item/"; method := Some "put";
         has_initial_data := false; initial_data := None;
         backend_fields := [] |} 1 shared_key_component
    = Thrown (Error message) shared_key_component.
Proof.
  apply (unsupported_method_throws (fun _ => [int 1]) _ 1
           shared_key_component "/api/item/").
  - reflexivity.
  - discriminate.
  - discriminate.
Defined.

(** C6: without a remote target (the url is absent or empty),
    [submit_to_django] returns having added one event to the log, the
    submit event that carries the payload and no response: no request is
    issued. *)
Theorem no_target_emits_locally
    (delivered : event -> list value) (config : DjangoFormConfig)
    (data : loc) (c : component) :
  present (django_url config) = None ->
  submit_to_django delivered config data c =
    Returned (record (EmitSubmit (VRef data) None) c)
  /\ log (record (EmitSubmit (VRef data) None) c) =
       log c ++ [EmitSubmit (VRef data) None].
Proof.
  intros Hurl. unfold submit_to_django. rewrite Hurl. split; reflexivity.
Qed.

Lemma no_target_emits_locally_witness :
  let config := {| django_url := None; method := Some "post";
                   has_initial_data := false; initial_data := None;
                   backend_fields := [] |} in
  submit_to_django (fun _ => [int 1]) config 1 shared_key_component =
    Returned (record (EmitSubmit (VRef 1) None) shared_key_component)
  /\ log (record (EmitSubmit (VRef 1) None) shared_key_component) =
       log shared_key_component ++ [EmitSubmit (VRef 1) None].
Proof.
  apply (no_target_emits_locally (fun _ => [int 1]) _ 1 shared_key_component).
  reflexivity.
Defined.

(** ** The action list *)

Lemma generate_from_readable actions ret :
  Forall readable actions ->
  exists rs,
    generate_from actions ret = Returned (ret ++ rs)
    /\ Forall2 (fun a r => generate_action a = Some r) actions rs.
Proof.
  intros Hall. revert ret.
  induction Hall as [|a actions [Hnull Hundef] _ IH]; intros ret.
  - exists []. split; [simpl; by rewrite app_nil_r|constructor].
  - assert (Hgen : exists r, generate_action a = Some r).
    { unfold generate_action.
      destruct a as [items|p|o]; [eexists; reflexivity| |eexists; reflexivity].
      destruct p; try (eexists; reflexivity); congruence. }
    destruct Hgen as [r Hr]. destruct (IH (ret ++ [r])) as (rs & Hrs & Hall2).
    exists (r :: rs). split.
    + simpl. rewrite Hr, Hrs, <- app_assoc. reflexivity.
    + constructor; assumption.
Qed.

Lemma generate_action_describes a r :
  generate_action a = Some r -> describes a r.
Proof.
  unfold generate_action. destruct (cancel_of a) as [cancel|] eqn:Hc;
    [|discriminate].
  intros [= <-]. destruct a as [items|p|o]; simpl in *.
  - constructor; reflexivity.
  - constructor; reflexivity.
  - injection Hc as <-. constructor; reflexivity.
Qed.



(** C10: in every record that [_generate_actions] returns, [cancel] is
    what reading [cancel] off the descriptor gives.  For a scalar and for a
    pair the record has [cancel] bound to [undefined], while the local
    [action_cancel] is [false]: the local is not what is written. *)
Theorem generate_actions_cancel_is_raw (actions : list descriptor) :
  Forall readable actions ->
  exists rs,
    _generate_actions (Some actions) = Returned rs
    /\ Forall2
         (fun a r =>
            Obj.get "cancel" r = cancel_of a
            /\ match a with
               | DObject o => Obj.get "cancel" r = Some (Obj.read o "cancel")
               | _ =>
                   Obj.get "cancel" r = Some undefined
                   /\ action_cancel (locals_of a) = VPrim (PBool false)
               end)
         actions rs.
Proof.
  intros Hall.
  destruct (generate_from_readable actions [] Hall) as (rs & Hrs & Hall2).
  exists rs. split; [exact Hrs|].
  eapply Forall2_impl; [exact Hall2|]. intros a r.
  unfold generate_action. destruct (cancel_of a) as [cancel|] eqn:Hc;
    [|discriminate].
  intros [= <-]. split; [reflexivity|].
  destruct a as [items|p|o]; simpl in *.
  - injection Hc as <-. split; reflexivity.
  - destruct p; try discriminate; injection Hc as <-; split; reflexivity.
  - injection Hc as <-. reflexivity.
Qed.

Lemma generate_actions_cancel_is_raw_witness :
  exists rs,
    _generate_actions (Some [DPrim (PStr "save"); DArray [str "no"]])
      = Returned rs
    /\ Forall2
         (fun a r =>
            Obj.get "cancel" r = cancel_of a
            /\ match a with
               | DObject o => Obj.get "cancel" r = Some (Obj.read o "cancel")
               | _ =>
                   Obj.get "cancel" r = Some undefined
                   /\ action_cancel (locals_of a) = VPrim (PBool false)
               end)
         [DPrim (PStr "save"); DArray [str "no"]] rs.
Proof.
  apply (generate_actions_cancel_is_raw
           [DPrim (PStr "save"); DArray [str "no"]]).
  repeat constructor; discriminate.
Defined.

(** ** The configuration stream *)



(** ** Flattening on an acyclic heap *)

Lemma ranked_elim rk h l o k l' :
  ranked rk h -> h !! l = Some o -> (k, VRef l') ∈ o ->
  is_Some (h !! l') /\ rk l' < rk l.
Proof.
  intros Hr Hl Hin. specialize (Hr l o Hl). simpl in Hr.
  rewrite Forall_forall in Hr. exact (Hr _ Hin).
Qed.

Lemma ranked_intro rk h :
  (forall l o k l', h !! l = Some o -> (k, VRef l') ∈ o ->
     is_Some (h !! l') /\ rk l' < rk l) ->
  ranked rk h.
Proof.
  intros H l o Hl. simpl. apply Forall_forall. intros [k [p|l']] Hin; simpl.
  - exact I.
  - exact (H l o k l' Hl Hin).
Qed.

Section ElemLemmas.
Context {V : Type}.
Implicit Type o : list (string * V).

Lemma get_elem_of k o (v : V) : Obj.get k o = Some v -> (k, v) ∈ o.
Proof.
  induction o as [|[k0 v0] o IH]; simpl; [discriminate|].
  destruct (String.eqb_spec k k0) as [->|].
  - intros [= ->]. left.
  - intros H. right. auto.
Qed.

Lemma elem_of_set x k (v : V) o :
  x ∈ Obj.set k v o -> x = (k, v) \/ x ∈ o.
Proof.
  induction o as [|[k0 v0] o IH]; simpl.
  - intros ->%list_elem_of_singleton. by left.
  - destruct (String.eqb_spec k k0) as [->|].
    + intros [->|H]%elem_of_cons; [by left|]. right. by right.
    + intros [->|H]%elem_of_cons; [right; left|].
      destruct (IH H) as [->|]; [by left|]. right. by right.
Qed.

Lemma elem_of_delete x k o : x ∈ Obj.delete k o -> x ∈ o.
Proof.
  induction o as [|[k0 v0] o IH]; simpl; [trivial|].
  destruct (String.eqb k k0).
  - intros H. right. auto.
  - intros [->|H]%elem_of_cons; [left|right; auto].
Qed.

Lemma elem_of_assign x (a b : list (string * V)) :
  x ∈ Obj.assign a b -> x ∈ a \/ x ∈ b.
Proof.
  unfold Obj.assign. revert a.
  induction b as [|[k0 v0] b IH]; simpl; intros a H; [by left|].
  destruct (IH _ H) as [H'|H'].
  - destruct (elem_of_set _ _ _ _ H') as [->|]; [right; left|by left].
  - right. by right.
Qed.

End ElemLemmas.

Lemma read_cases o k :
  (exists p, Obj.read o k = VPrim p) \/
  (exists l, Obj.read o k = VRef l /\ (k, VRef l) ∈ o).
Proof.
  unfold Obj.read. destruct (Obj.get k o) as [[p|l]|] eqn:Hg; simpl.
  - left. by eexists.
  - right. exists l. split; [reflexivity|]. by apply get_elem_of.
  - left. by eexists.
Qed.

Lemma for_each_invariant {S : Type} (P : S -> Prop)
    (body : string -> S -> run S) (ks : list string) (s : S) :
  (forall k s1, k ∈ ks -> P s1 -> exists s2, body k s1 = Returned s2 /\ P s2) ->
  P s -> exists s', for_each ks body s = Returned s' /\ P s'.
Proof.
  revert s. induction ks as [|k ks IH]; intros s Hbody Hs; simpl.
  - by exists s.
  - destruct (Hbody k s) as (s2 & Hk & Hs2); [left|exact Hs|].
    rewrite Hk. simpl. apply IH; [|exact Hs2].
    intros k' s1 Hk'. apply Hbody. by right.
Qed.

Lemma ranked_insert rk h p o' :
  ranked rk h -> is_Some (h !! p) ->
  (forall k l', (k, VRef l') ∈ o' -> is_Some (h !! l') /\ rk l' < rk p) ->
  ranked rk (<[p := o']> h).
Proof.
  intros Hr Hp Ho'. apply ranked_intro. intros l o k l' Hl Hin.
  assert (Hgoal : is_Some (h !! l') /\ rk l' < rk l).
  { destruct (decide (p = l)) as [->|Hne].
    - rewrite lookup_insert_eq in Hl. injection Hl as <-. eauto.
    - rewrite lookup_insert_ne in Hl by exact Hne.
      exact (ranked_elim rk h l o k l' Hr Hl Hin). }
  destruct Hgoal as [Hsome Hlt]. split; [|exact Hlt].
  apply lookup_insert_is_Some. destruct (decide (p = l')); auto.
Qed.

Lemma hoist_ranked rk n c p h oc :
  ranked rk h -> h !! c = Some oc -> is_Some (h !! p) -> rk c < rk p ->
  exists h',
    hoist n c (Some p) h = Returned h'
    /\ ranked rk h'
    /\ is_Some (h' !! p)
    /\ forall l, l <> p -> h' !! l = h !! l.
Proof.
  intros Hr Hc Hp Hlt. unfold hoist. rewrite Hc.
  assert (Hcp : c <> p) by (intros ->; lia).
  destruct (for_each_invariant
    (fun h1 => ranked rk h1 /\ is_Some (h1 !! p)
               /\ forall l, l <> p -> h1 !! l = h !! l)
    (fun k h1 =>
       match h1 !! c, h1 !! p with
       | Some oc0, Some op =>
           Returned (<[p := Obj.set k (Obj.read oc0 k) op]> h1)
       | _, _ => Stuck
       end) (Obj.names oc) h) as (h2 & Hloop & Hr2 & Hp2 & Hframe2).
  - intros k h1 _ (Hr1 & [op Hop] & Hframe1). cbv beta.
    rewrite (Hframe1 c Hcp), Hc, Hop. eexists. split; [reflexivity|].
    split; [|split].
    + apply ranked_insert; [exact Hr1|by eexists|].
      intros k' l' [[= -> Hread]|Hin]%elem_of_set.
      * destruct (read_cases oc k) as [[q Hq]|(l0 & Hl0 & Hin)]; [congruence|].
        rewrite Hl0 in Hread. injection Hread as ->.
        assert (Hc1 : h1 !! c = Some oc) by (rewrite Hframe1; auto).
        destruct (ranked_elim rk h1 c oc k l0 Hr1 Hc1 Hin). split; [auto|lia].
      * exact (ranked_elim rk h1 p op k' l' Hr1 Hop Hin).
    + rewrite lookup_insert_eq. by eexists.
    + intros l Hl. rewrite lookup_insert_ne by auto. auto.
  - auto.
  - rewrite Hloop. cbn [bind]. destruct Hp2 as [op Hop]. rewrite Hop.
    eexists. split; [reflexivity|]. split; [|split].
    + apply ranked_insert; [exact Hr2|by eexists|].
      intros k' l' Hin%elem_of_delete.
      exact (ranked_elim rk h2 p op k' l' Hr2 Hop Hin).
    + rewrite lookup_insert_eq. by eexists.
    + intros l Hl. rewrite lookup_insert_ne by auto. auto.
Qed.

(** On an acyclic heap [_flatten] returns when given the fuel of its
    argument; the heap stays acyclic, no object appears or disappears, and
    only the parent, the current object and objects ranked below it are
    written. *)
Lemma flatten_ranked rk fuel :
  forall name cur parent h,
    ranked rk h ->
    fuel_of rk cur <= fuel ->
    (forall c, cur = VRef c -> is_Some (h !! c)) ->
    (is_marker name = true -> forall c, cur = VRef c ->
       exists p, parent = Some p /\ is_Some (h !! p) /\ rk c < rk p) ->
    exists h',
      _flatten fuel name cur parent h = Returned h'
      /\ ranked rk h'
      /\ (forall l, is_Some (h' !! l) <-> is_Some (h !! l))
      /\ forall l,
           (forall c, cur = VRef c -> l <> c /\ ~ rk l < rk c) ->
           (is_marker name = true -> parent <> Some l) ->
           h' !! l = h !! l.
Proof.
  induction fuel as [|fuel IH]; intros name cur parent h Hr Hfuel Hcur Hpar.
  { destruct cur; simpl in Hfuel; lia. }
  destruct cur as [q|c]; cbn [_flatten].
  { exists h. repeat split; auto. }
  destruct (Hcur c eq_refl) as [o Ho]. rewrite Ho.
  simpl in Hfuel.
  destruct (for_each_invariant
    (fun h1 => ranked rk h1
               /\ (forall l, is_Some (h1 !! l) <-> is_Some (h !! l))
               /\ forall l, l <> c -> ~ rk l < rk c -> h1 !! l = h !! l)
    (fun k h1 =>
       match h1 !! c with
       | Some oc => _flatten fuel (Some k) (Obj.read oc k) (Some c) h1
       | None => Stuck
       end) (Obj.names o) h) as (h2 & Hloop & Hr2 & Hdom2 & Hframe2).
  - intros k h1 _ (Hr1 & Hdom1 & Hframe1).
    assert (Hc1 : is_Some (h1 !! c)) by (apply Hdom1; by eexists).
    destruct Hc1 as [oc Hoc]. cbv beta. rewrite Hoc.
    destruct (IH (Some k) (Obj.read oc k) (Some c) h1) as
      (h1' & Hrun & Hr1' & Hdom1' & Hframe1').
    + exact Hr1.
    + destruct (read_cases oc k) as [[q ->]|(l0 & -> & Hin)]; simpl; [lia|].
      destruct (ranked_elim rk h1 c oc k l0 Hr1 Hoc Hin). lia.
    + intros c' Hc'.
      destruct (read_cases oc k) as [[q Hq]|(l0 & Hl0 & Hin)]; [congruence|].
      rewrite Hl0 in Hc'. injection Hc' as <-.
      by destruct (ranked_elim rk h1 c oc k l0 Hr1 Hoc Hin).
    + intros _ c' Hc'. exists c. split; [reflexivity|]. split; [by eexists|].
      destruct (read_cases oc k) as [[q Hq]|(l0 & Hl0 & Hin)]; [congruence|].
      rewrite Hl0 in Hc'. injection Hc' as <-.
      by destruct (ranked_elim rk h1 c oc k l0 Hr1 Hoc Hin).
    + exists h1'. split; [exact Hrun|]. split; [exact Hr1'|]. split.
      * intros l. rewrite Hdom1'. apply Hdom1.
      * intros l Hlc Hrk. rewrite Hframe1'; [by apply Hframe1| |].
        -- intros c' Hc'.
           destruct (read_cases oc k) as [[q Hq]|(l0 & Hl0 & Hin)];
             [congruence|].
           rewrite Hl0 in Hc'. injection Hc' as <-.
           destruct (ranked_elim rk h1 c oc k l0 Hr1 Hoc Hin) as [_ Hlt].
           split; [intros ->; lia|lia].
        -- intros _ [= ->]. by apply Hlc.
  - repeat split; auto.
  - rewrite Hloop. cbn [bind].
    assert (Hkeep : exists h',
      Returned h2 = Returned h' /\ ranked rk h'
      /\ (forall l, is_Some (h' !! l) <-> is_Some (h !! l))
      /\ forall l : loc,
           (forall c0, VRef c = VRef c0 -> l <> c0 /\ ~ rk l < rk c0) ->
           (is_marker name = true -> parent <> Some l) ->
           h' !! l = h !! l).
    { exists h2. repeat split; auto; try apply Hdom2.
      intros l Hl _. destruct (Hl c eq_refl). by apply Hframe2. }
    destruct name as [n|]; [|exact Hkeep].
    destruct (is_marker (Some n)) eqn:Hm; [|exact Hkeep]. clear Hkeep.
    destruct (Hpar eq_refl c eq_refl) as (p & -> & Hp & Hlt).
    assert (Hc2 : is_Some (h2 !! c)) by (apply Hdom2; by eexists).
    destruct Hc2 as [oc Hoc].
    destruct (hoist_ranked rk n c p h2 oc Hr2 Hoc) as
      (h3 & Hrun & Hr3 & Hp3 & Hframe3); [by apply Hdom2|exact Hlt|].
    exists h3. split; [exact Hrun|]. split; [exact Hr3|]. split.
    + intros l. destruct (decide (l = p)) as [->|Hne].
      * split; auto.
      * rewrite Hframe3 by exact Hne. apply Hdom2.
    + intros l Hl Hpl. destruct (Hl c eq_refl).
      rewrite Hframe3 by (intros ->; by apply Hpl). by apply Hframe2.
Qed.

(** ** [submitted] *)

(** The copy that [submitted] takes and flattens: flattening returns, the
    copy is a new object and the live object is not written. *)
Lemma submitted_flatten rk fuel (c : component) live :
  ranked rk (heap c) ->
  heap c !! form_value c = Some live ->
  S (S (rk (form_value c))) <= fuel ->
  let value := fresh (dom (heap c)) in
  value <> form_value c
  /\ exists h1 o,
       _flatten fuel None (VRef value) None
         (<[value := Obj.assign [] live]> (heap c)) = Returned h1
       /\ h1 !! value = Some o
       /\ h1 !! form_value c = Some live.
Proof.
  intros Hr Hlive Hfuel value.
  assert (Hfresh : heap c !! value = None).
  { apply not_elem_of_dom. apply is_fresh. }
  assert (Hne : value <> form_value c) by (intros Heq; congruence).
  split; [exact Hne|].
  set (rk' := fun l : nat => if decide (l = value) then rk (form_value c)
                             else rk l).
  set (h0 := <[value := Obj.assign [] live]> (heap c)).
  assert (Hr0 : ranked rk' h0).
  { apply ranked_intro. intros l o k l' Hl Hin.
    assert (Hold : exists l1 o1, heap c !! l1 = Some o1 /\ (k, VRef l') ∈ o1
                                 /\ rk' l = rk l1).
    { unfold h0 in Hl. destruct (decide (value = l)) as [<-|Hl'].
      - rewrite lookup_insert_eq in Hl. injection Hl as <-.
        apply elem_of_assign in Hin as [Hin|Hin];
          [by apply not_elem_of_nil in Hin|].
        exists (form_value c), live. repeat split; auto.
        unfold rk'. by rewrite decide_True.
      - rewrite lookup_insert_ne in Hl by exact Hl'.
        exists l, o. repeat split; auto.
        unfold rk'. rewrite decide_False; auto. }
    destruct Hold as (l1 & o1 & Hl1 & Hin1 & Hrk).
    destruct (ranked_elim rk (heap c) l1 o1 k l' Hr Hl1 Hin1) as [Hs Hlt].
    assert (Hl'v : l' <> value).
    { intros ->. rewrite Hfresh in Hs. by destruct Hs. }
    split.
    - unfold h0. rewrite lookup_insert_ne by auto. exact Hs.
    - rewrite Hrk. unfold rk' at 1. rewrite decide_False by exact Hl'v.
      exact Hlt. }
  destruct (flatten_ranked rk' fuel None (VRef value) None h0 Hr0) as
    (h1 & Hrun & _ & Hdom & Hframe).
  - simpl. unfold rk'. rewrite decide_True by reflexivity. exact Hfuel.
  - intros c0 [= <-]. unfold h0. rewrite lookup_insert_eq. by eexists.
  - discriminate.
  - assert (Hv : is_Some (h1 !! value)).
    { apply Hdom. unfold h0. rewrite lookup_insert_eq. by eexists. }
    destruct Hv as [o Ho]. exists h1, o. split; [exact Hrun|].
    split; [exact Ho|].
    rewrite Hframe.
    + unfold h0. rewrite lookup_insert_ne by exact Hne. exact Hlive.
    + intros c0 [= <-]. split; [by intros Heq; apply Hne|].
      unfold rk'. rewrite (decide_True (P := value = value)) by reflexivity.
      rewrite decide_False by (by intros Heq; apply Hne). lia.
    + discriminate.
Qed.

(** On an acyclic form value, shared objects allowed, [submitted] with
    the cancel flag returns, and the log has grown by exactly one event,
    the cancel event whose data is the copy of the form value: the copy
    holds what flattening left in it, and under a present action id the
    value [true]. *)
Lemma cancel_on_acyclic_heap
    (delivered : event -> list value) (rk : loc -> nat) (fuel : nat)
    (config : DjangoFormConfig) (button_id : option string)
    (c : component) (live : obj) :
  ranked rk (heap c) ->
  heap c !! form_value c = Some live ->
  S (S (rk (form_value c))) <= fuel ->
  let value := fresh (dom (heap c)) in
  exists h1 o c',
    _flatten fuel None (VRef value) None
      (<[value := Obj.assign [] live]> (heap c)) = Returned h1
    /\ h1 !! value = Some o
    /\ submitted delivered fuel config button_id true c = Returned c'
    /\ log c' = log c ++ [EmitCancel (VRef value)]
    /\ heap c' !! value =
         Some (match present button_id with
               | Some b => Obj.set b (VPrim (PBool true)) o
               | None => o
               end)
    /\ forall l, l <> value -> heap c' !! l = h1 !! l.
Proof.
  intros Hr Hlive Hfuel value.
  destruct (submitted_flatten rk fuel c live Hr Hlive Hfuel) as
    (_ & h1 & o & Hrun & Ho & _).
  fold value in Hrun, Ho.
  exists h1, o. eexists. split; [exact Hrun|]. split; [exact Ho|].
  unfold submitted. rewrite Hlive. fold value. rewrite Hrun, Ho.
  split; [reflexivity|]. split; [reflexivity|]. cbn [heap record with_heap].
  destruct (present button_id) as [b|].
  - split; [by rewrite lookup_insert_eq|].
    intros l Hl. by rewrite lookup_insert_ne.
  - split; [exact Ho|reflexivity].
Qed.

Lemma heap_on_responses data responses c :
  heap (fold_left (on_response data) responses c) = heap c.
Proof.
  revert c. induction responses as [|r rs IH]; intros c; simpl; [reflexivity|].
  rewrite IH. reflexivity.
Qed.

Lemma heap_submit_to_django delivered config data c c' :
  submit_to_django delivered config data c = Returned c'
  \/ (exists e, submit_to_django delivered config data c = Thrown e c') ->
  heap c' = heap c.
Proof.
  unfold submit_to_django.
  destruct (present (django_url config)) as [url|];
    [destruct (method config) as [m|];
       [destruct (String.eqb m "post"); [|destruct (String.eqb m "patch")];
          try destruct (extra_of c), (heap c !! data)|]|];
    intros [H|[e H]]; try discriminate;
    first [ injection H as <-; rewrite ?heap_on_responses; reflexivity
          | injection H as _ <-; reflexivity ].
Qed.

(** C2, as the code has it: [submitted] flattens a new object that holds
    the properties of the live form value, and whatever [submitted] does
    afterwards the live object itself holds the properties it held.  The
    objects its properties refer to are shared with the copy and are not
    covered. *)
Theorem flatten_spares_live_object
    (delivered : event -> list value) (rk : loc -> nat) (fuel : nat)
    (config : DjangoFormConfig) (button_id : option string)
    (is_cancel : bool) (c : component) (live : obj) :
  ranked rk (heap c) ->
  heap c !! form_value c = Some live ->
  S (S (rk (form_value c))) <= fuel ->
  let value := fresh (dom (heap c)) in
  value <> form_value c
  /\ (exists h1,
        _flatten fuel None (VRef value) None
          (<[value := Obj.assign [] live]> (heap c)) = Returned h1
        /\ h1 !! form_value c = Some live)
  /\ forall c',
       submitted delivered fuel config button_id is_cancel c = Returned c'
       \/ (exists e,
             submitted delivered fuel config button_id is_cancel c
               = Thrown e c') ->
       heap c' !! form_value c = Some live.
Proof.
  intros Hr Hlive Hfuel value.
  destruct (submitted_flatten rk fuel c live Hr Hlive Hfuel) as
    (Hne & h1 & o & Hrun & Ho & Hkept).
  fold value in Hne, Hrun, Ho.
  split; [exact Hne|]. split; [by exists h1|].
  intros c'. unfold submitted. rewrite Hlive. fold value. rewrite Hrun, Ho.
  set (h2 := match present button_id with
             | Some b => <[value := Obj.set b (VPrim (PBool true)) o]> h1
             | None => h1
             end).
  assert (Hh2 : h2 !! form_value c = Some live).
  { unfold h2. destruct (present button_id); [|exact Hkept].
    rewrite lookup_insert_ne by exact Hne. exact Hkept. }
  destruct is_cancel.
  - intros [H|[e H]]; [|discriminate]. injection H as <-. exact Hh2.
  - intros H. apply heap_submit_to_django in H. rewrite H. exact Hh2.
Qed.

Lemma flatten_spares_live_object_witness :
  let c := nested_marker_component in
  let value := fresh (dom (heap c)) in
  value <> form_value c
  /\ (exists h1,
        _flatten 4 None (VRef value) None
          (<[value := Obj.assign [] [("group", VRef 1)]]> (heap c))
          = Returned h1
        /\ h1 !! form_value c = Some [("group", VRef 1)])
  /\ forall c',
       submitted (fun _ => []) 4 post_config None false c = Returned c'
       \/ (exists e,
             submitted (fun _ => []) 4 post_config None false c
               = Thrown e c') ->
       heap c' !! form_value c = Some [("group", VRef 1)].
Proof.
  apply (flatten_spares_live_object (fun _ => []) (fun l => l) 4
           post_config None false nested_marker_component
           [("group", VRef 1)]).
  - apply (bool_decide_unpack (ranked _ _)). vm_compute. exact I.
  - reflexivity.
  - simpl. lia.
Defined.

(** C2, as stated, fails: the object under "group", reached from the live
    form value, holds the marker key before [submitted] and the hoisted
    field after it. *)
Lemma flatten_writes_nested_object :
  let c := nested_marker_component in
  exists c',
    submitted (fun _ => []) 4 post_config None true c = Returned c'
    /\ heap c !! form_value c = Some [("group", VRef 1)]
    /\ heap c !! 1 = Some [("generated_x", VRef 0)]
    /\ heap c' !! 1 = Some [("b", int 1)].
Proof.
  eexists. split; [vm_compute; reflexivity|].
  split; [reflexivity|]. split; reflexivity.
Qed.

(** ** Trees in the heap *)

Lemma repr_fields_weaken h o fs F F' :
  repr_fields h o fs F -> F ⊆ F' -> repr_fields h o fs F'.
Proof.
  intros Hr Hsub. inversion Hr; subst.
  - constructor.
  - econstructor; eauto. set_solver.
Qed.

Lemma repr_weaken h v t F F' : repr h v t F -> F ⊆ F' -> repr h v t F'.
Proof.
  intros Hr Hsub. inversion Hr; subst.
  - constructor.
  - econstructor; eauto.
    eapply repr_fields_weaken; [eassumption|]. set_solver.
Qed.

Lemma repr_frame_both h :
  (forall v t F, repr h v t F ->
     forall h', (forall l, l ∈ F -> h' !! l = h !! l) -> repr h' v t F)
  /\ (forall o fs F, repr_fields h o fs F ->
       forall h', (forall l, l ∈ F -> h' !! l = h !! l) ->
       repr_fields h' o fs F).
Proof.
  split.
  - apply (repr_mutual h
      (fun v t F => forall h', (forall l, l ∈ F -> h' !! l = h !! l) ->
                    repr h' v t F)
      (fun o fs F => forall h', (forall l, l ∈ F -> h' !! l = h !! l) ->
                     repr_fields h' o fs F)).
    + intros. constructor.
    + intros l o fs F Hl Ho Hnd _ IH h' Hsame. econstructor; eauto.
      * rewrite Hsame; auto.
      * apply IH. intros l' Hl'. apply Hsame. set_solver.
    + intros. constructor.
    + intros k v t o fs F1 F2 F _ IH1 _ IH2 Hdisj Hsub h' Hsame.
      econstructor; eauto.
      * apply IH1. intros l' Hl'. apply Hsame. set_solver.
      * apply IH2. intros l' Hl'. apply Hsame. set_solver.
  - apply (repr_fields_mutual h
      (fun v t F => forall h', (forall l, l ∈ F -> h' !! l = h !! l) ->
                    repr h' v t F)
      (fun o fs F => forall h', (forall l, l ∈ F -> h' !! l = h !! l) ->
                     repr_fields h' o fs F)).
    + intros. constructor.
    + intros l o fs F Hl Ho Hnd _ IH h' Hsame. econstructor; eauto.
      * rewrite Hsame; auto.
      * apply IH. intros l' Hl'. apply Hsame. set_solver.
    + intros. constructor.
    + intros k v t o fs F1 F2 F _ IH1 _ IH2 Hdisj Hsub h' Hsame.
      econstructor; eauto.
      * apply IH1. intros l' Hl'. apply Hsame. set_solver.
      * apply IH2. intros l' Hl'. apply Hsame. set_solver.
Qed.

Lemma repr_frame h h' v t F :
  repr h v t F -> (forall l, l ∈ F -> h' !! l = h !! l) -> repr h' v t F.
Proof. intros Hr. by apply (proj1 (repr_frame_both h)). Qed.

Lemma repr_fields_frame h h' o fs F :
  repr_fields h o fs F -> (forall l, l ∈ F -> h' !! l = h !! l) ->
  repr_fields h' o fs F.
Proof. intros Hr. by apply (proj2 (repr_frame_both h)). Qed.

Lemma repr_fields_names h o fs F :
  repr_fields h o fs F -> Obj.names o = Obj.names fs.
Proof.
  revert fs F. induction o as [|[k v] o IH]; intros fs F Hr;
    inversion Hr; subst; [reflexivity|].
  unfold Obj.names in *. simpl. f_equal. eauto.
Qed.

Lemma repr_fields_delete h k o fs F :
  repr_fields h o fs F ->
  repr_fields h (Obj.delete k o) (Obj.delete k fs) F.
Proof.
  revert fs F. induction o as [|[k0 v] o IH]; intros fs F Hr;
    inversion Hr; subst; simpl; [constructor|].
  destruct (String.eqb k k0).
  - eapply repr_fields_weaken; [eapply IH; eassumption|]. set_solver.
  - econstructor; eauto.
Qed.

(** The field under [k]: its subtree, the objects it uses, and the objects
    the other fields use; the field can be given a new value in place. *)
Lemma repr_fields_get h k o fs F v :
  repr_fields h o fs F -> Obj.get k o = Some v ->
  exists t Fv Frest,
    Obj.get k fs = Some t
    /\ repr h v t Fv
    /\ Fv ## Frest /\ Fv ∪ Frest ⊆ F
    /\ repr_fields h (Obj.delete k o) (Obj.delete k fs) Frest
    /\ forall h' v' t',
         (forall l, l ∈ Frest -> h' !! l = h !! l) ->
         repr h' v' t' Fv ->
         repr_fields h' (Obj.set k v' o) (Obj.set k t' fs) F.
Proof.
  revert fs F. induction o as [|[k0 v0] o IH]; intros fs F Hr;
    inversion Hr as [|? ? t0 ? fs0 F1 F2 ? Hv0 Hrest Hdisj Hsub]; subst;
    simpl; [discriminate|].
  destruct (String.eqb_spec k k0) as [->|Hne].
  - intros [= ->]. exists t0, F1, F2. repeat split; auto.
    + by apply repr_fields_delete.
    + intros h' v' t' Hsame Hv'. econstructor; eauto.
      eapply repr_fields_frame; eauto.
  - intros Hget.
    destruct (IH fs0 F2 Hrest Hget) as
      (t & Fv & Frest & Hgt & Hv & Hd & Hs & Hdel & Hset).
    exists t, Fv, (F1 ∪ Frest). split; [exact Hgt|]. split; [exact Hv|].
    split; [set_solver|]. split; [set_solver|]. split.
    + econstructor; [exact Hv0|exact Hdel|set_solver|set_solver].
    + intros h' v' t' Hsame Hv'. econstructor.
      * eapply repr_frame; [exact Hv0|]. intros l Hl. apply Hsame. set_solver.
      * apply Hset; [|exact Hv']. intros l Hl. apply Hsame. set_solver.
      * set_solver.
      * set_solver.
Qed.

Lemma repr_fields_set h k o fs F v t Fv :
  repr_fields h o fs F -> repr h v t Fv -> Fv ## F ->
  repr_fields h (Obj.set k v o) (Obj.set k t fs) (F ∪ Fv).
Proof.
  revert fs F. induction o as [|[k0 v0] o IH]; intros fs F Hr Hv Hdisj;
    inversion Hr as [|? ? t0 ? fs0 F1 F2 ? Hv0 Hrest Hd Hsub]; subst; simpl.
  - apply (repr_cons h k v t [] [] Fv ∅); [exact Hv|constructor|..];
      set_solver.
  - destruct (String.eqb k k0).
    + econstructor; [exact Hv|exact Hrest|set_solver|set_solver].
    + econstructor; [exact Hv0|eapply (IH fs0 F2); eauto|..]; set_solver.
Qed.

Lemma repr_fields_assign h a fa Fa b fb Fb :
  repr_fields h a fa Fa -> repr_fields h b fb Fb -> Fa ## Fb ->
  repr_fields h (Obj.assign a b) (Obj.assign fa fb) (Fa ∪ Fb).
Proof.
  unfold Obj.assign. revert a fa Fa fb Fb.
  induction b as [|[k v] b IH]; intros a fa Fa fb Fb Ha Hb Hdisj;
    inversion Hb as [|? ? t ? fs0 F1 F2 ? Hv Hrest Hd Hsub]; subst; simpl.
  - eapply repr_fields_weaken; [exact Ha|set_solver].
  - eapply repr_fields_weaken.
    + eapply (IH _ _ (Fa ∪ F1) fs0 F2); [|exact Hrest|set_solver].
      apply repr_fields_set; [exact Ha|exact Hv|set_solver].
    + set_solver.
Qed.

(** ** More on property lists *)

Section ObjAlgebra.
Context {V : Type}.
Implicit Type o : list (string * V).

Lemma set_get_id k (v : V) o : Obj.get k o = Some v -> Obj.set k v o = o.
Proof.
  induction o as [|[k0 v0] o IH]; simpl; [discriminate|].
  destruct (String.eqb_spec k k0) as [->|].
  - by intros [= ->].
  - intros H. by rewrite IH.
Qed.

Lemma delete_set k k' (v : V) o :
  Obj.delete k (Obj.set k' v o) =
    if String.eqb k k' then Obj.delete k o
    else Obj.set k' v (Obj.delete k o).
Proof.
  induction o as [|[k0 v0] o IH]; simpl; [eqb_cases; reflexivity|].
  destruct (String.eqb_spec k' k0), (String.eqb_spec k k0),
    (String.eqb_spec k k'); subst; simpl; rewrite ?IH; eqb_cases;
    reflexivity.
Qed.

Lemma delete_assign k (a b : list (string * V)) :
  Obj.delete k (Obj.assign a b) =
    Obj.assign (Obj.delete k a) (Obj.delete k b).
Proof.
  unfold Obj.assign. revert a.
  induction b as [|[k0 v0] b IH]; intros a; simpl; [reflexivity|].
  rewrite IH, delete_set.
  destruct (String.eqb k k0); reflexivity.
Qed.

Lemma names_delete k o :
  Obj.names (Obj.delete k o) = List.filter (fun x => negb (String.eqb k x))
                                 (Obj.names o).
Proof.
  unfold Obj.names. induction o as [|[k0 v0] o IH]; simpl; [reflexivity|].
  destruct (String.eqb k k0); simpl; by rewrite IH.
Qed.

Lemma elem_of_names_delete x k o :
  x ∈ Obj.names (Obj.delete k o) -> x ∈ Obj.names o /\ x <> k.
Proof.
  unfold Obj.names. induction o as [|[k0 v0] o IH]; simpl.
  - by intros ?%not_elem_of_nil.
  - destruct (String.eqb_spec k k0) as [->|Hne]; simpl.
    + intros [? ?]%IH. split; [by right|done].
    + intros [->|[? ?]%IH]%elem_of_cons;
        (split; [first [by left|by right]|auto]).
Qed.

Lemma NoDup_names_delete k o :
  NoDup (Obj.names o) -> NoDup (Obj.names (Obj.delete k o)).
Proof.
  unfold Obj.names. induction o as [|[k0 v0] o IH]; simpl; [trivial|].
  intros [Hk0 Hnd]%NoDup_cons. destruct (String.eqb k k0); simpl; [auto|].
  apply NoDup_cons. split; [|auto].
  intros [? ?]%elem_of_names_delete. contradiction.
Qed.

Lemma Forall_set (P : string * V -> Prop) k v o :
  Forall P o -> P (k, v) -> Forall P (Obj.set k v o).
Proof.
  rewrite !Forall_forall. intros Ho Hv x [->|Hx]%elem_of_set; auto.
Qed.

Lemma Forall_delete (P : string * V -> Prop) k o :
  Forall P o -> Forall P (Obj.delete k o).
Proof.
  rewrite !Forall_forall. intros Ho x Hx%elem_of_delete. auto.
Qed.

Lemma Forall_assign (P : string * V -> Prop) (a b : list (string * V)) :
  Forall P a -> Forall P b -> Forall P (Obj.assign a b).
Proof.
  rewrite !Forall_forall. intros Ha Hb x [Hx|Hx]%elem_of_assign; auto.
Qed.

End ObjAlgebra.

(** Writing the properties of [b] one name at a time, each read from [b],
    is [Obj.assign]. *)
Lemma assign_by_names (a b : obj) :
  NoDup (Obj.names b) ->
  fold_left (fun acc k => Obj.set k (Obj.read b k) acc) (Obj.names b) a
  = Obj.assign a b.
Proof.
  unfold Obj.assign.
  assert (Hgen : forall (b0 b : obj) (a : obj),
    NoDup (Obj.names b) ->
    (forall k, k ∈ Obj.names b -> Obj.read b0 k = Obj.read b k) ->
    fold_left (fun acc k => Obj.set k (Obj.read b0 k) acc) (Obj.names b) a
    = fold_left (fun acc kv => Obj.set (fst kv) (snd kv) acc) b a).
  { clear a b. intros b0 b. induction b as [|[k0 v0] b IH]; intros a Hnd Hread;
      [reflexivity|].
    unfold Obj.names in *. simpl in *.
    apply NoDup_cons in Hnd as [Hk0 Hnd].
    assert (Hk0v : Obj.read b0 k0 = v0).
    { rewrite (Hread k0) by left. unfold Obj.read. simpl.
      by rewrite String.eqb_refl. }
    rewrite Hk0v. apply IH; [exact Hnd|].
    intros k Hk. rewrite Hread by (by right).
    unfold Obj.read. simpl.
    destruct (String.eqb_spec k k0) as [->|]; [contradiction|reflexivity]. }
  intros Hnd. apply Hgen; auto.
Qed.

(** The second loop of [_flatten] and its [delete], in one step. *)
Lemma hoist_assign n x p (h : gmap loc obj) ox op :
  h !! x = Some ox -> h !! p = Some op -> x <> p ->
  NoDup (Obj.names ox) ->
  hoist n x (Some p) h
  = Returned (<[p := Obj.delete n (Obj.assign op ox)]> h).
Proof.
  intros Hx Hp Hxp Hnd. unfold hoist. rewrite Hx.
  assert (Hloop : forall ks acc,
    for_each ks
      (fun k h1 =>
         match h1 !! x, h1 !! p with
         | Some oc, Some op0 =>
             Returned (<[p := Obj.set k (Obj.read oc k) op0]> h1)
         | _, _ => Stuck
         end) (<[p := acc]> h)
    = Returned
        (<[p := fold_left (fun a k => Obj.set k (Obj.read ox k) a) ks acc]> h)).
  { induction ks as [|k ks IH]; intros acc; simpl; [reflexivity|].
    rewrite lookup_insert_ne by auto. rewrite Hx, lookup_insert_eq.
    cbn [bind]. rewrite insert_insert_eq. apply IH. }
  rewrite <- (insert_id h p op Hp) at 1.
  rewrite Hloop. cbn [bind]. rewrite lookup_insert_eq, insert_insert_eq.
  by rewrite assign_by_names.
Qed.

(** ** Fuel on trees *)

Lemma fits_mono n m t : fits n t -> n <= m -> fits m t.
Proof.
  revert m t. induction n as [|n IH]; intros m t; simpl; [contradiction|].
  intros Hfit Hle. destruct m as [|m]; [lia|]. simpl.
  destruct t as [p|fs]; [exact I|].
  eapply Forall_impl; [exact Hfit|]. intros kt Hkt. apply IH; [exact Hkt|lia].
Qed.

Lemma all_fit_mono n m fs : all_fit n fs -> n <= m -> all_fit m fs.
Proof.
  intros Hfit Hle. eapply Forall_impl; [exact Hfit|].
  intros kt Hkt. exact (fits_mono n m (snd kt) Hkt Hle).
Qed.

Lemma get_Forall {V : Type} (P : string * V -> Prop) k o v :
  Forall P o -> Obj.get k o = Some v -> P (k, v).
Proof.
  rewrite Forall_forall. intros Ho Hget. apply Ho. by apply get_elem_of.
Qed.

Lemma step_fits n visit acc k :
  (forall cs, fits n (TObj cs) ->
     all_fit n (visit cs) /\ fits n (TObj (visit cs))) ->
  all_fit n acc -> all_fit n (step_tree visit acc k).
Proof.
  intros Hvisit Hacc. unfold step_tree.
  destruct (Obj.get k acc) as [[p|cs]|] eqn:Hget; try exact Hacc.
  assert (Hcs : fits n (TObj cs)) by exact (get_Forall _ _ _ _ Hacc Hget).
  destruct (Hvisit cs Hcs) as [Hall Hobj].
  destruct (is_marker (Some k)).
  - apply Forall_delete, Forall_assign; assumption.
  - apply Forall_set; assumption.
Qed.

Lemma fold_step_fits n visit ks acc :
  (forall cs, fits n (TObj cs) ->
     all_fit n (visit cs) /\ fits n (TObj (visit cs))) ->
  all_fit n acc -> all_fit n (fold_left (step_tree visit) ks acc).
Proof.
  intros Hvisit. revert acc.
  induction ks as [|k ks IH]; intros acc Hacc; simpl; [exact Hacc|].
  apply IH. by apply step_fits.
Qed.

Lemma visit_fits n fs : all_fit n fs -> all_fit n (visit_tree (S n) fs).
Proof.
  revert fs. induction n as [|n IH]; intros fs Hfs.
  - unfold all_fit in *. destruct fs as [|kt fs]; [simpl; constructor|].
    apply Forall_cons in Hfs as [[] _].
  - cbn [visit_tree]. apply fold_step_fits; [|exact Hfs].
    intros cs Hcs. simpl in Hcs.
    assert (Hv : all_fit n (visit_tree (S n) cs)) by exact (IH cs Hcs).
    split; [|exact Hv]. apply (all_fit_mono n); [exact Hv|lia].
Qed.

Lemma visit_child_fits n cs :
  fits n (TObj cs) ->
  all_fit n (visit_tree n cs) /\ fits n (TObj (visit_tree n cs)).
Proof.
  destruct n as [|n]; [contradiction|]. intros Hcs. simpl in Hcs.
  assert (Hv : all_fit n (visit_tree (S n) cs)) by exact (visit_fits n cs Hcs).
  split; [|exact Hv]. apply (all_fit_mono n); [exact Hv|lia].
Qed.

(** ** [_flatten] on the objects of a tree *)

Lemma repr_fields_get_None h o fs F k :
  repr_fields h o fs F -> Obj.get k o = None -> Obj.get k fs = None.
Proof.
  intros Hrf Hget. apply get_None_names.
  rewrite <- (repr_fields_names h o fs F Hrf).
  intros Hin. destruct (Obj.get k o) eqn:Hk; [discriminate|].
  clear Hget. revert Hk Hin. unfold Obj.names.
  induction o as [|[k0 v0] o IH] in fs, F, Hrf |- *; simpl.
  - by intros _ ?%not_elem_of_nil.
  - inversion Hrf; subst.
    destruct (String.eqb_spec k k0) as [->|Hne]; [discriminate|].
    intros Hk [->|Hin]%elem_of_cons; [done|]. eapply IH; eauto.
Qed.

(** The first loop of [_flatten] on the object [c], from any state of the
    loop: the fields of [c] stand for a list of subtrees, and the loop
    folds [step_tree] over the names. *)
Lemma loop_repr n c :
  child_spec (S n) ->
  forall ks (h : gmap loc obj) o fs F,
    h !! c = Some o -> NoDup (Obj.names o) ->
    repr_fields h o fs F -> c ∉ F -> all_fit (S n) fs ->
    exists h2 o2,
      for_each ks
        (fun k h1 =>
           match h1 !! c with
           | Some oc => _flatten (S n) (Some k) (Obj.read oc k) (Some c) h1
           | None => Stuck
           end) h = Returned h2
      /\ h2 !! c = Some o2
      /\ NoDup (Obj.names o2)
      /\ repr_fields h2 o2
           (fold_left (step_tree (visit_tree (S n))) ks fs) F
      /\ forall l, l ∉ F -> l <> c -> h2 !! l = h !! l.
Proof.
  intros Hchild. induction ks as [|k ks IH]; intros h o fs F Ho Hnd Hrf Hc Hfit.
  { exists h, o. simpl. repeat split; auto. }
  cbn [for_each fold_left]. rewrite Ho.
  assert (Hfit' : all_fit (S n) (step_tree (visit_tree (S n)) fs k)).
  { apply step_fits; [apply visit_child_fits|exact Hfit]. }
  destruct (Obj.get k o) as [v|] eqn:Hget.
  2:{ (* no such property: the value read is undefined *)
    unfold Obj.read. rewrite Hget. cbn [default undefined _flatten bind].
    assert (Hstep : step_tree (visit_tree (S n)) fs k = fs).
    { unfold step_tree.
      by rewrite (repr_fields_get_None h o fs F k Hrf Hget). }
    rewrite Hstep. by apply (IH h o fs F). }
  assert (Hread : Obj.read o k = v) by (unfold Obj.read; by rewrite Hget).
  rewrite Hread.
  destruct (repr_fields_get h k o fs F v Hrf Hget) as
    (t & Fv & Frest & Hgt & Hv & Hd & Hs & Hdel & Hset).
  assert (Hft : fits (S n) t) by exact (get_Forall _ _ _ _ Hfit Hgt).
  assert (HcFv : c ∉ Fv) by set_solver.
  destruct (Hchild k v c h t Fv o Hv Hft HcFv Ho) as (hm & Hrm & Hfr & Hrun).
  rewrite Hrun. cbn [bind].
  assert (Hmc : hm !! c = Some o) by (rewrite Hfr; auto).
  assert (Hkeep : repr_fields hm o (Obj.set k (flatten_tree (S n) t) fs) F).
  { rewrite <- (set_get_id k v o Hget). apply Hset; [|exact Hrm].
    intros l Hl. apply Hfr. set_solver. }
  destruct v as [q|x].
  - (* a primitive *)
    inversion Hv; subst.
    assert (Hstep : step_tree (visit_tree (S n)) fs k = fs).
    { unfold step_tree. by rewrite Hgt. }
    rewrite Hstep. cbn [flatten_tree] in Hkeep.
    rewrite (set_get_id k _ fs Hgt) in Hkeep.
    destruct (IH hm o fs F Hmc Hnd Hkeep Hc Hfit) as
      (h2 & o2 & Hloop & Ho2 & Hnd2 & Hrf2 & Hframe2).
    exists h2, o2. repeat split; auto.
    intros l Hl Hlc. rewrite Hframe2 by auto. apply Hfr. set_solver.
  - (* an object *)
    inversion Hv as [|? ox cs ? Hx Hox Hndx Hcs]; subst.
    cbn [flatten_tree] in Hrm, Hkeep.
    inversion Hrm as [|? ox' cs' ? _ Hox' Hndx' Hcs']; subst.
    rewrite Hox'. cbn [default].
    destruct (is_marker (Some k)) eqn:Hm.
    + (* under a marker name: hoisted into [c] *)
      set (o2 := Obj.delete k (Obj.assign o ox')).
      set (h' := <[c := o2]> hm).
      assert (Hstep : step_tree (visit_tree (S n)) fs k
                      = Obj.delete k (Obj.assign fs (visit_tree (S n) cs))).
      { unfold step_tree. by rewrite Hgt, Hm. }
      rewrite Hstep in Hfit' |- *.
      assert (Hrf' : repr_fields h' o2
                       (Obj.delete k (Obj.assign fs (visit_tree (S n) cs))) F).
      { unfold o2. rewrite !delete_assign.
        apply (repr_fields_frame hm).
        - eapply repr_fields_weaken.
          + apply (repr_fields_assign hm _ _ Frest _ _ (Fv ∖ {[x]})).
            * eapply repr_fields_frame; [exact Hdel|].
              intros l Hl. apply Hfr. set_solver.
            * by apply repr_fields_delete.
            * set_solver.
          + set_solver.
        - intros l Hl. unfold h'. rewrite lookup_insert_ne; [done|].
          intros ->. contradiction. }
      destruct (IH h' o2 (Obj.delete k (Obj.assign fs (visit_tree (S n) cs))) F)
        as (h2 & o3 & Hloop & Ho3 & Hnd3 & Hrf3 & Hframe3);
        [by apply lookup_insert_eq| |exact Hrf'|exact Hc|exact Hfit'|].
      { unfold o2. by apply NoDup_names_delete, NoDup_names_assign. }
      exists h2, o3. repeat split; auto.
      intros l Hl Hlc. rewrite Hframe3 by auto. unfold h'.
      rewrite lookup_insert_ne by auto. apply Hfr. set_solver.
    + (* under another name: flattened in place *)
      assert (Hstep : step_tree (visit_tree (S n)) fs k
                      = Obj.set k (TObj (visit_tree (S n) cs)) fs).
      { unfold step_tree. by rewrite Hgt, Hm. }
      rewrite Hstep in Hfit' |- *.
      destruct (IH hm o (Obj.set k (TObj (visit_tree (S n) cs)) fs) F
                  Hmc Hnd Hkeep Hc Hfit') as
        (h2 & o2 & Hloop & Ho2 & Hnd2 & Hrf2 & Hframe2).
      exists h2, o2. repeat split; auto.
      intros l Hl Hlc. rewrite Hframe2 by auto. apply Hfr. set_solver.
Qed.

(** The first loop of [_flatten] on an object that stands for a tree. *)
Lemma visit_repr n x (h : gmap loc obj) ox cs Fv :
  (n <> 0 -> child_spec n) ->
  x ∈ Fv -> h !! x = Some ox -> NoDup (Obj.names ox) ->
  repr_fields h ox cs (Fv ∖ {[x]}) -> all_fit n cs ->
  exists h2,
    for_each (Obj.names ox)
      (fun k h1 =>
         match h1 !! x with
         | Some oc => _flatten n (Some k) (Obj.read oc k) (Some x) h1
         | None => Stuck
         end) h = Returned h2
    /\ repr h2 (VRef x) (TObj (visit_tree (S n) cs)) Fv
    /\ forall l, l ∉ Fv -> h2 !! l = h !! l.
Proof.
  intros Hchild Hx Hox Hnd Hrf Hfit. destruct n as [|n].
  - unfold all_fit in Hfit. destruct cs as [|kt cs];
      [|apply Forall_cons in Hfit as [[] _]].
    inversion Hrf; subst. exists h. simpl. split; [reflexivity|].
    split; [|reflexivity]. econstructor; eauto.
  - assert (Hout : x ∉ Fv ∖ {[x]}) by set_solver.
    assert (Hc : child_spec (S n)) by (apply Hchild; lia).
    destruct (loop_repr n x Hc (Obj.names ox) h ox cs
                (Fv ∖ {[x]}) Hox Hnd Hrf Hout Hfit) as
      (h2 & o2 & Hloop & Ho2 & Hnd2 & Hrf2 & Hframe2).
    exists h2. split; [exact Hloop|]. split.
    + cbn [visit_tree]. rewrite <- (repr_fields_names h ox cs _ Hrf).
      econstructor; eauto.
    + intros l Hl. apply Hframe2; set_solver.
Qed.

Lemma child_spec_all n : child_spec n.
Proof.
  induction n as [|n IH]; intros name v p h t Fv op Hv Hfit Hp Hop;
    [contradiction|].
  destruct v as [q|x].
  - inversion Hv; subst. exists h. split; [constructor|]. split; auto.
  - inversion Hv as [|? ox cs ? Hx Hox Hnd Hcs]; subst. simpl in Hfit.
    destruct (visit_repr n x h ox cs Fv (fun _ => IH) Hx Hox Hnd Hcs Hfit) as
      (h2 & Hloop & Hr2 & Hframe2).
    exists h2. split; [exact Hr2|]. split; [exact Hframe2|].
    cbn [_flatten]. rewrite Hox, Hloop. cbn [bind].
    destruct (is_marker (Some name)); [|reflexivity].
    inversion Hr2 as [|? ox2 ? ? _ Hox2 Hnd2 _]; subst.
    rewrite Hox2. cbn [default].
    apply hoist_assign; auto.
    + rewrite Hframe2; auto.
    + intros ->. contradiction.
Qed.

(** The call [this._flatten(null, value, null)] on a value that stands for
    a tree returns, and the objects of the tree then stand for the tree
    that [flatten_tree] computes; no other object is written. *)
Lemma flatten_repr fuel (h : gmap loc obj) v t F :
  repr h v t F -> fits fuel t ->
  exists h',
    _flatten fuel None v None h = Returned h'
    /\ repr h' v (flatten_tree fuel t) F
    /\ forall l, l ∉ F -> h' !! l = h !! l.
Proof.
  intros Hv Hfit. destruct fuel as [|n]; [contradiction|].
  destruct v as [q|x].
  - inversion Hv; subst. exists h. split; [constructor|]. split; auto.
  - inversion Hv as [|? ox cs ? Hx Hox Hnd Hcs]; subst. simpl in Hfit.
    destruct (visit_repr n x h ox cs F (fun _ => child_spec_all n)
                Hx Hox Hnd Hcs Hfit) as (h2 & Hloop & Hr2 & Hframe2).
    exists h2. cbn [_flatten]. rewrite Hox, Hloop. by cbn [bind].
Qed.

(** ** Building and reading trees *)

Lemma tree_ind (P : tree -> Prop) :
  (forall p, P (TPrim p)) ->
  (forall fs, Forall (fun kt => P (snd kt)) fs -> P (TObj fs)) ->
  forall t, P t.
Proof.
  intros Hprim Hobj. fix IH 1. intros [p|fs]; [apply Hprim|].
  apply Hobj. induction fs as [|[k t] fs IHfs]; constructor.
  - apply IH.
  - exact IHfs.
Qed.

Lemma alloc_obj fs (h : gmap loc obj) :
  alloc (TObj fs) h =
    let '(o, h1) := alloc_fields fs h in
    (VRef (fresh (dom h1)), <[fresh (dom h1) := o]> h1).
Proof. reflexivity. Qed.

Lemma distinct_names_obj fs :
  distinct_names (TObj fs) = true ->
  NoDup (Obj.names fs) /\ Forall (fun kt => distinct_names (snd kt) = true) fs.
Proof.
  cbn [distinct_names]. intros [Hnd Hall]%andb_prop. split.
  - by apply bool_decide_eq_true in Hnd.
  - apply Forall_forall. intros kt Hkt.
    rewrite forallb_forall in Hall. apply Hall. by apply list_elem_of_In.
Qed.

(** [alloc] builds new objects that stand for the tree and leaves the
    objects of the heap alone. *)
Lemma alloc_repr t :
  forall (h : gmap loc obj) v h',
    distinct_names t = true -> alloc t h = (v, h') ->
    repr h' v t (dom h' ∖ dom h)
    /\ dom h ⊆ dom h'
    /\ forall l, l ∈ dom h -> h' !! l = h !! l.
Proof.
  induction t as [p|fs IH] using tree_ind; intros h v h' Hdn Halloc.
  { injection Halloc as <- <-. split; [constructor|]. split; auto. }
  apply distinct_names_obj in Hdn as [Hnd Hall].
  assert (Hfields : forall (h : gmap loc obj) o h1,
    alloc_fields fs h = (o, h1) ->
    repr_fields h1 o fs (dom h1 ∖ dom h)
    /\ dom h ⊆ dom h1
    /\ (forall l, l ∈ dom h -> h1 !! l = h !! l)
    /\ Obj.names o = Obj.names fs).
  { clear h v h' Halloc Hnd.
    induction fs as [|[k t] fs IHfs]; intros h o h1 Hf.
    - injection Hf as <- <-. split; [constructor|]. repeat split; auto.
    - apply Forall_cons in IH as [IHt IH]. apply Forall_cons in Hall as [Ht Hall].
      simpl in Hf. destruct (alloc t h) as [v hv] eqn:Hv.
      destruct (alloc_fields fs hv) as [o' ho] eqn:Ho. injection Hf as <- <-.
      destruct (IHt h v hv Ht Hv) as (Hrv & Hsub & Hsame).
      destruct (IHfs IH Hall hv o' ho Ho) as (Hrf & Hsub' & Hsame' & Hnames).
      split; [|split; [set_solver|split]].
      + apply (repr_cons ho k v t o' fs (dom hv ∖ dom h) (dom ho ∖ dom hv)).
        * eapply repr_frame; [exact Hrv|]. intros l Hl. apply Hsame'.
          set_solver.
        * exact Hrf.
        * set_solver.
        * set_solver.
      + intros l Hl. rewrite Hsame' by set_solver. by apply Hsame.
      + unfold Obj.names in *. simpl. by rewrite Hnames. }
  rewrite alloc_obj in Halloc.
  destruct (alloc_fields fs h) as [o h1] eqn:Hf. injection Halloc as <- <-.
  destruct (Hfields h o h1 Hf) as (Hrf & Hsub & Hsame & Hnames).
  assert (Hfresh : fresh (dom h1) ∉ dom h1) by apply is_fresh.
  set (l := fresh (dom h1)) in *.
  rewrite dom_insert_L. split; [|split].
  - apply (repr_obj _ l o fs).
    + set_solver.
    + apply lookup_insert_eq.
    + by rewrite Hnames.
    + eapply repr_fields_weaken.
      * eapply repr_fields_frame; [exact Hrf|].
        intros l' Hl'. rewrite lookup_insert_ne; [done|].
        intros <-. set_solver.
      * set_solver.
  - set_solver.
  - intros l' Hl'. rewrite lookup_insert_ne; [by apply Hsame|].
    intros <-. set_solver.
Qed.

(** [extract] reads back the tree a value stands for. *)
Lemma extract_repr n :
  forall (h : gmap loc obj) v t F,
    repr h v t F -> fits n t -> extract n h v = Some t.
Proof.
  induction n as [|n IH]; intros h v t F Hv Hfit; [contradiction|].
  inversion Hv as [|l o fs ? Hl Ho Hnd Hrf]; subst; [reflexivity|].
  cbn [extract]. rewrite Ho. cbn.
  simpl in Hfit.
  assert (Hm : mapM (fun kv : string * value =>
                       t ← extract n h (snd kv); Some (fst kv, t)) o
               = Some fs).
  { clear Ho Hnd Hl Hv. revert fs Hrf Hfit. generalize (F ∖ {[l]}) as G.
    induction o as [|[k v] o IHo]; intros G fs Hrf Hfit;
      inversion Hrf; subst; [reflexivity|].
    apply Forall_cons in Hfit as [Ht Hfit].
    cbn. erewrite IH; [|eassumption|exact Ht]. cbn.
    erewrite IHo; [|eassumption|exact Hfit]. reflexivity. }
  rewrite Hm. reflexivity.
Qed.

(** [flatten_payload] computes [flatten_tree]. *)
Lemma flatten_payload_tree fuel t :
  distinct_names t = true -> fits fuel t ->
  flatten_payload fuel t = Some (flatten_tree fuel t).
Proof.
  intros Hdn Hfit. unfold flatten_payload.
  destruct (alloc t ∅) as [v h] eqn:Halloc.
  destruct (alloc_repr t ∅ v h Hdn Halloc) as (Hv & _ & _).
  destruct (flatten_repr fuel h v t _ Hv Hfit) as (h' & Hrun & Hv' & _).
  rewrite Hrun. eapply extract_repr; [exact Hv'|].
  destruct t as [p|fs]; [exact Hfit|].
  destruct fuel as [|n]; [contradiction|]. simpl in Hfit.
  exact (visit_fits n fs Hfit).
Qed.

Lemma fits_depth t : fits (S (depth t)) t.
Proof.
  induction t as [p|fs IH] using tree_ind; [exact I|].
  change (Forall (fun kt => fits (depth (TObj fs)) (snd kt)) fs).
  apply Forall_forall. intros kt Hkt. rewrite Forall_forall in IH.
  apply (fits_mono (S (depth (snd kt)))); [by apply IH|].
  assert (Hle : Forall (fun d => d <= list_max (map (fun kt => depth (snd kt)) fs))
                  (map (fun kt => depth (snd kt)) fs)).
  { by apply list_max_le. }
  rewrite Forall_forall in Hle.
  assert (depth (snd kt) <= list_max (map (fun kt => depth (snd kt)) fs)).
  { apply Hle. apply list_elem_of_fmap. by exists kt. }
  cbn [depth]. lia.
Qed.

Lemma fits_depth_lt t fuel : depth t < fuel -> fits fuel t.
Proof.
  intros Hlt. apply (fits_mono (S (depth t))); [apply fits_depth|lia].
Qed.

(** ** Flattening without markers *)

Lemma marker_free_get k fs t :
  marker_free (TObj fs) = true -> Obj.get k fs = Some t ->
  is_marker (Some k) = false /\ marker_free t = true.
Proof.
  cbn [marker_free]. intros Hall Hget. rewrite forallb_forall in Hall.
  apply get_elem_of, list_elem_of_In in Hget.
  apply Hall in Hget. apply andb_prop in Hget as [Hk Ht]. simpl in *.
  split; [by apply negb_true_iff in Hk|exact Ht].
Qed.

(** On a value that stands for a tree without markers, [_flatten] under a
    name that is no marker returns and has written nothing. *)
Lemma flatten_marker_free fuel :
  forall (h : gmap loc obj) name v parent t F,
    repr h v t F -> marker_free t = true -> fits fuel t ->
    is_marker name = false ->
    _flatten fuel name v parent h = Returned h.
Proof.
  induction fuel as [|n IH]; intros h name v parent t F Hv Hmf Hfit Hname;
    [contradiction|].
  inversion Hv as [|x ox cs ? Hx Hox Hnd Hcs]; subst; [reflexivity|].
  cbn [_flatten]. rewrite Hox. simpl in Hfit.
  assert (Hloop : forall ks,
    ks ⊆ Obj.names ox ->
    for_each ks
      (fun k h1 =>
         match h1 !! x with
         | Some oc => _flatten n (Some k) (Obj.read oc k) (Some x) h1
         | None => Stuck
         end) h = Returned h).
  { induction ks as [|k ks IHks]; intros Hks; [reflexivity|].
    cbn [for_each]. rewrite Hox.
    assert (Hk : k ∈ Obj.names ox) by set_solver.
    destruct (Obj.get k ox) as [v|] eqn:Hget.
    2:{ apply get_None_names_inv in Hget. contradiction. }
    assert (Hread : Obj.read ox k = v) by (unfold Obj.read; by rewrite Hget).
    rewrite Hread.
    destruct (repr_fields_get h k ox cs _ v Hcs Hget) as
      (t & Fv & Frest & Hgt & Hvt & _).
    destruct (marker_free_get k cs t Hmf Hgt) as [Hk' Ht].
    rewrite (IH h (Some k) v (Some x) t Fv Hvt Ht
               (get_Forall _ _ _ _ Hfit Hgt) Hk').
    cbn [bind]. apply IHks. set_solver. }
  rewrite Hloop by reflexivity. cbn [bind].
  destruct name as [nm|]; [|reflexivity]. by rewrite Hname.
Qed.

(** C9: on a payload tree none of whose keys, at any depth, is a marker,
    flattening returns the tree itself; on the objects of the tree
    [_flatten] has written nothing. *)
Theorem flatten_identity_without_markers (t : tree) (fuel : nat) :
  distinct_names t = true ->
  marker_free t = true ->
  depth t < fuel ->
  flatten_payload fuel t = Some t
  /\ forall v h, alloc t ∅ = (v, h) ->
                 _flatten fuel None v None h = Returned h.
Proof.
  intros Hdn Hmf Hfit%fits_depth_lt.
  assert (Hrun : forall v h, alloc t ∅ = (v, h) ->
                             _flatten fuel None v None h = Returned h).
  { intros v h Halloc.
    destruct (alloc_repr t ∅ v h Hdn Halloc) as (Hv & _ & _).
    by apply (flatten_marker_free fuel h None v None t _ Hv). }
  split; [|exact Hrun].
  unfold flatten_payload. destruct (alloc t ∅) as [v h] eqn:Halloc.
  rewrite (Hrun v h eq_refl).
  destruct (alloc_repr t ∅ v h Hdn Halloc) as (Hv & _ & _).
  by apply (extract_repr fuel h v t _ Hv).
Qed.

Lemma flatten_identity_without_markers_witness :
  let t := TObj [("a", TPrim (PNum 1)); ("group", TObj [("b", TPrim PNull)])] in
  flatten_payload 3 t = Some t
  /\ forall v h, alloc t ∅ = (v, h) ->
                 _flatten 3 None v None h = Returned h.
Proof.
  apply (flatten_identity_without_markers
           (TObj [("a", TPrim (PNum 1)); ("group", TObj [("b", TPrim PNull)])])
           3).
  - vm_compute. reflexivity.
  - reflexivity.
  - simpl. lia.
Defined.

(** ** More on lists of fields *)

Section FieldLists.
Context {V : Type}.
Implicit Type o a b : list (string * V).

Lemma names_app a b : Obj.names (a ++ b) = Obj.names a ++ Obj.names b.
Proof. unfold Obj.names. apply map_app. Qed.

Lemma get_app_notin k a b :
  k ∉ Obj.names a -> Obj.get k (a ++ b) = Obj.get k b.
Proof.
  unfold Obj.names. induction a as [|[k0 v0] a IH]; simpl; [reflexivity|].
  intros [Hne Hk]%not_elem_of_cons.
  destruct (String.eqb_spec k k0); [contradiction|auto].
Qed.

Lemma set_app_here k (v t : V) a b :
  k ∉ Obj.names a -> Obj.set k v (a ++ (k, t) :: b) = a ++ (k, v) :: b.
Proof.
  unfold Obj.names. induction a as [|[k0 v0] a IH]; simpl.
  - intros _. by rewrite String.eqb_refl.
  - intros [Hne Hk]%not_elem_of_cons.
    destruct (String.eqb_spec k k0); [contradiction|]. by rewrite IH.
Qed.

Lemma set_notin k (v : V) o :
  k ∉ Obj.names o -> Obj.set k v o = o ++ [(k, v)].
Proof.
  unfold Obj.names. induction o as [|[k0 v0] o IH]; simpl; [reflexivity|].
  intros [Hne Hk]%not_elem_of_cons.
  destruct (String.eqb_spec k k0); [contradiction|]. by rewrite IH.
Qed.

Lemma assign_disjoint a b :
  NoDup (Obj.names b) ->
  (forall x, x ∈ Obj.names b -> x ∉ Obj.names a) ->
  Obj.assign a b = a ++ b.
Proof.
  unfold Obj.assign. revert a.
  induction b as [|[k v] b IH]; intros a Hnd Hdisj; simpl.
  - by rewrite app_nil_r.
  - unfold Obj.names in Hnd. simpl in Hnd.
    apply NoDup_cons in Hnd as [Hk Hnd].
    rewrite set_notin by (apply Hdisj; left).
    rewrite IH; [by rewrite <- app_assoc|exact Hnd|].
    intros x Hx. rewrite names_app. intros [Hin|Hin]%elem_of_app.
    + revert Hin. apply Hdisj. by right.
    + apply list_elem_of_singleton in Hin as ->. contradiction.
Qed.

Lemma delete_notin k o : k ∉ Obj.names o -> Obj.delete k o = o.
Proof.
  unfold Obj.names. induction o as [|[k0 v0] o IH]; simpl; [reflexivity|].
  intros [Hne Hk]%not_elem_of_cons.
  destruct (String.eqb_spec k k0); [contradiction|]. by rewrite IH.
Qed.

Lemma delete_app k a b :
  Obj.delete k (a ++ b) = Obj.delete k a ++ Obj.delete k b.
Proof.
  induction a as [|[k0 v0] a IH]; simpl; [reflexivity|].
  destruct (String.eqb k k0); simpl; by rewrite IH.
Qed.

End FieldLists.

(** ** Flattening and the specification *)

Lemma spec_flatten_obj fs :
  spec_flatten (TObj fs) =
    TObj (kept (spec_fields fs) ++ lifted (spec_fields fs)).
Proof. reflexivity. Qed.

Lemma spec_fields_app a b :
  spec_fields (a ++ b) = spec_fields a ++ spec_fields b.
Proof. unfold spec_fields. apply map_app. Qed.

Lemma names_spec_fields fs : Obj.names (spec_fields fs) = Obj.names fs.
Proof.
  unfold Obj.names, spec_fields. rewrite map_map. reflexivity.
Qed.

Lemma kept_app a b : kept (a ++ b) = kept a ++ kept b.
Proof. unfold kept. apply List.filter_app. Qed.

Lemma lifted_app a b : lifted (a ++ b) = lifted a ++ lifted b.
Proof. unfold lifted. apply flat_map_app. Qed.

Lemma kept_one k t :
  kept (spec_fields [(k, t)]) =
    if hoists (k, spec_flatten t) then [] else [(k, spec_flatten t)].
Proof.
  unfold kept, spec_fields. cbn [map List.filter fst snd].
  by destruct (hoists (k, spec_flatten t)).
Qed.

Lemma lifted_one k t :
  lifted (spec_fields [(k, t)]) =
    if hoists (k, spec_flatten t) then fields_of (spec_flatten t) else [].
Proof.
  unfold lifted, spec_fields. cbn [map flat_map fst snd].
  by rewrite app_nil_r.
Qed.

Lemma names_kept x fs : x ∈ Obj.names (kept fs) -> x ∈ Obj.names fs.
Proof.
  unfold Obj.names, kept. induction fs as [|kt fs IH]; simpl; [trivial|].
  destruct (negb (hoists kt)); simpl.
  - intros [->|Hin]%elem_of_cons; [left|right; auto].
  - intros Hin. right. auto.
Qed.

Lemma collision_free_obj fs :
  collision_free (TObj fs) = true ->
  NoDup (Obj.names fs ++ Obj.names (lifted (spec_fields fs)))
  /\ Forall (fun kt => collision_free (snd kt) = true) fs.
Proof.
  cbn [collision_free]. intros [Hnd Hall]%andb_prop. split.
  - by apply bool_decide_eq_true in Hnd.
  - apply Forall_forall. intros kt Hkt.
    rewrite forallb_forall in Hall. apply Hall. by apply list_elem_of_In.
Qed.

(** The loop of [_flatten] on an object without collisions, from the
    state where the fields [pre] are done: the fields kept so far, the
    fields to come, and the fields hoisted so far. *)
Lemma fold_spec visit fs :
  NoDup (Obj.names fs ++ Obj.names (lifted (spec_fields fs))) ->
  (forall k cs, (k, TObj cs) ∈ fs ->
     visit cs = fields_of (spec_flatten (TObj cs))) ->
  forall suf pre,
    fs = pre ++ suf ->
    fold_left (step_tree visit) (Obj.names suf)
      (kept (spec_fields pre) ++ suf ++ lifted (spec_fields pre))
    = kept (spec_fields fs) ++ lifted (spec_fields fs).
Proof.
  intros Hnd Hvisit. induction suf as [|[k t] suf IH]; intros pre Hfs.
  { rewrite app_nil_r in Hfs. subst pre. reflexivity. }
  specialize (IH (pre ++ [(k, t)])).
  rewrite <- app_assoc in IH. specialize (IH Hfs).
  rewrite spec_fields_app, kept_app, lifted_app, kept_one, lifted_one in IH.
  cbn [Obj.names map fst fold_left].
  set (K := kept (spec_fields pre)) in *.
  set (L := lifted (spec_fields pre)) in *.
  assert (HKpre : forall x, x ∈ Obj.names K -> x ∈ Obj.names pre).
  { intros x Hx%names_kept. by rewrite names_spec_fields in Hx. }
  rewrite Hfs in Hnd.
  rewrite spec_fields_app, lifted_app in Hnd.
  change (spec_fields ((k, t) :: suf))
    with ((k, spec_flatten t) :: spec_fields suf) in Hnd.
  change (lifted ((k, spec_flatten t) :: spec_fields suf))
    with ((if hoists (k, spec_flatten t) then fields_of (spec_flatten t)
           else []) ++ lifted (spec_fields suf)) in Hnd.
  fold L in Hnd. rewrite !names_app in Hnd.
  change (Obj.names ((k, t) :: suf)) with (k :: Obj.names suf) in Hnd.
  apply NoDup_app in Hnd as (Hnd1 & Hdisj1 & Hnd2).
  apply NoDup_app in Hnd1 as (_ & Hpre_suf & Hksuf).
  apply NoDup_cons in Hksuf as [Hksuf _].
  assert (HkK : k ∉ Obj.names K).
  { intros Hin%HKpre. apply (Hpre_suf k Hin). left. }
  change (K ++ ((k, t) :: suf) ++ L) with (K ++ (k, t) :: suf ++ L).
  assert (Hget : Obj.get k (K ++ (k, t) :: suf ++ L) = Some t).
  { rewrite get_app_notin by exact HkK. simpl. by rewrite String.eqb_refl. }
  destruct t as [p|cs].
  { (* a primitive stays *)
    assert (Hstep : step_tree visit (K ++ (k, TPrim p) :: suf ++ L) k
                    = K ++ (k, TPrim p) :: suf ++ L).
    { unfold step_tree. by rewrite Hget. }
    rewrite Hstep, <- IH. f_equal. unfold hoists. simpl.
    rewrite andb_false_r. by rewrite app_nil_r, <- app_assoc. }
  assert (Hcs : visit cs = fields_of (spec_flatten (TObj cs))).
  { apply (Hvisit k). rewrite Hfs. apply elem_of_app. right. left. }
  assert (Hh : hoists (k, spec_flatten (TObj cs)) = is_marker (Some k)).
  { unfold hoists. simpl. apply andb_true_r. }
  rewrite Hh in Hnd2, Hdisj1, IH.
  destruct (is_marker (Some k)) eqn:Hm.
  - (* hoisted *)
    assert (Hstep : step_tree visit (K ++ (k, TObj cs) :: suf ++ L) k
                    = Obj.delete k
                        (Obj.assign (K ++ (k, TObj cs) :: suf ++ L)
                           (fields_of (spec_flatten (TObj cs))))).
    { unfold step_tree. by rewrite Hget, Hm, Hcs. }
    rewrite Hstep. clear Hstep.
    set (cs' := fields_of (spec_flatten (TObj cs))) in *.
    apply NoDup_app in Hnd2 as (_ & HL_rest & Hnd3).
    apply NoDup_app in Hnd3 as (Hndcs & _ & _).
    assert (Hkfs : k ∈ Obj.names pre ++ k :: Obj.names suf).
    { apply elem_of_app. right. left. }
    assert (Hkcs : k ∉ Obj.names cs').
    { intros Hin. apply (Hdisj1 k Hkfs).
      apply elem_of_app. right. apply elem_of_app. by left. }
    assert (HkL : k ∉ Obj.names L).
    { intros Hin. apply (Hdisj1 k Hkfs). apply elem_of_app. by left. }
    rewrite assign_disjoint.
    + rewrite !delete_app. cbn [Obj.delete]. rewrite String.eqb_refl.
      rewrite (delete_notin k K) by exact HkK.
      rewrite (delete_notin k cs') by exact Hkcs.
      rewrite (delete_notin k (suf ++ L))
        by (rewrite names_app; intros [?|?]%elem_of_app; contradiction).
      rewrite <- IH. f_equal. by rewrite !app_nil_r, <- !app_assoc.
    + exact Hndcs.
    + intros x Hx. rewrite names_app. cbn [Obj.names map fst].
      change (map fst (suf ++ L)) with (Obj.names (suf ++ L)).
      change (map fst K) with (Obj.names K).
      rewrite names_app.
      intros [HinK|[->|[Hins|HinL]%elem_of_app]%elem_of_cons]%elem_of_app.
      * apply HKpre in HinK. apply (Hdisj1 x).
        -- apply elem_of_app. by left.
        -- apply elem_of_app. right. apply elem_of_app. by left.
      * contradiction.
      * apply (Hdisj1 x).
        -- apply elem_of_app. right. by right.
        -- apply elem_of_app. right. apply elem_of_app. by left.
      * apply (HL_rest x HinL). apply elem_of_app. by left.
  - (* flattened in place *)
    assert (Hstep : step_tree visit (K ++ (k, TObj cs) :: suf ++ L) k
                    = Obj.set k (TObj (fields_of (spec_flatten (TObj cs))))
                        (K ++ (k, TObj cs) :: suf ++ L)).
    { unfold step_tree. by rewrite Hget, Hm, Hcs. }
    rewrite Hstep. clear Hstep.
    rewrite set_app_here by exact HkK.
    rewrite <- IH. f_equal. by rewrite app_nil_r, <- app_assoc.
Qed.

Lemma visit_spec n :
  forall fs,
    collision_free (TObj fs) = true -> all_fit n fs ->
    visit_tree (S n) fs = kept (spec_fields fs) ++ lifted (spec_fields fs).
Proof.
  induction n as [|n IH]; intros fs Hcf Hfit.
  { unfold all_fit in Hfit. destruct fs as [|kt fs]; [reflexivity|].
    apply Forall_cons in Hfit as [[] _]. }
  destruct (collision_free_obj fs Hcf) as [Hnd Hall].
  assert (Hvisit : forall k cs, (k, TObj cs) ∈ fs ->
            visit_tree (S n) cs = fields_of (spec_flatten (TObj cs))).
  { intros k cs Hin. rewrite spec_flatten_obj. cbn [fields_of].
    apply IH.
    - rewrite Forall_forall in Hall. exact (Hall _ Hin).
    - unfold all_fit in Hfit. rewrite Forall_forall in Hfit.
      exact (Hfit _ Hin). }
  pose proof (fold_spec (visit_tree (S n)) fs Hnd Hvisit fs [] eq_refl) as H.
  cbn [spec_fields map kept lifted List.filter flat_map app] in H.
  rewrite app_nil_r in H. exact H.
Qed.

(** Without collisions [flatten_tree] is the flattening of the
    specification. *)
Lemma flatten_tree_spec fuel t :
  collision_free t = true -> fits fuel t -> flatten_tree fuel t = spec_flatten t.
Proof.
  intros Hcf Hfit. destruct t as [p|fs]; [reflexivity|].
  destruct fuel as [|n]; [contradiction|]. simpl in Hfit.
  cbn [flatten_tree]. rewrite spec_flatten_obj. f_equal.
  by apply visit_spec.
Qed.

(** ** Every marker is resolved *)

Section ElemNoDup.
Context {V : Type}.
Implicit Type o : list (string * V).

Lemma elem_of_names (x : string * V) o : x ∈ o -> fst x ∈ Obj.names o.
Proof.
  intros Hx. unfold Obj.names. apply list_elem_of_fmap. by exists x.
Qed.

Lemma elem_of_get_NoDup k (v : V) o :
  NoDup (Obj.names o) -> (k, v) ∈ o -> Obj.get k o = Some v.
Proof.
  unfold Obj.names. induction o as [|[k0 v0] o IH]; simpl.
  - by intros _ ?%not_elem_of_nil.
  - intros [Hk0 Hnd]%NoDup_cons [[= -> ->]|Hin]%elem_of_cons.
    + by rewrite String.eqb_refl.
    + destruct (String.eqb_spec k k0) as [->|]; [|auto].
      exfalso. apply Hk0. exact (elem_of_names _ _ Hin).
Qed.

Lemma elem_of_set_NoDup x k (v : V) o :
  NoDup (Obj.names o) -> x ∈ Obj.set k v o ->
  x = (k, v) \/ (x ∈ o /\ fst x <> k).
Proof.
  unfold Obj.names. induction o as [|[k0 v0] o IH]; simpl.
  - intros _ ->%list_elem_of_singleton. by left.
  - intros [Hk0 Hnd]%NoDup_cons.
    destruct (String.eqb_spec k k0) as [->|Hne].
    + intros [->|Hin]%elem_of_cons; [by left|]. right. split; [by right|].
      intros Heq. apply Hk0. rewrite <- Heq. exact (elem_of_names _ _ Hin).
    + intros [->|Hin]%elem_of_cons.
      * right. split; [left|]. simpl. congruence.
      * destruct (IH Hnd Hin) as [->|[Hin' Hne']]; [by left|].
        right. split; [by right|exact Hne'].
Qed.

Lemma elem_of_delete_ne x k o :
  x ∈ Obj.delete k o -> x ∈ o /\ fst x <> k.
Proof.
  induction o as [|[k0 v0] o IH]; simpl.
  - by intros ?%not_elem_of_nil.
  - destruct (String.eqb_spec k k0) as [->|Hne].
    + intros [Hin Hx]%IH. split; [by right|exact Hx].
    + intros [->|[Hin Hx]%IH]%elem_of_cons.
      * split; [left|]. simpl. congruence.
      * split; [by right|exact Hx].
Qed.

End ElemNoDup.

Lemma distinct_names_intro fs :
  NoDup (Obj.names fs) ->
  Forall (fun kt => distinct_names (snd kt) = true) fs ->
  distinct_names (TObj fs) = true.
Proof.
  intros Hnd Hall. cbn [distinct_names]. apply andb_true_intro. split.
  - by apply bool_decide_eq_true.
  - apply forallb_forall. intros kt Hkt%list_elem_of_In.
    rewrite Forall_forall in Hall. by apply Hall.
Qed.

Lemma resolved_obj fs :
  resolved (TObj fs) = true <->
  forall kt, kt ∈ fs -> hoists kt = false /\ resolved (snd kt) = true.
Proof.
  cbn [resolved]. rewrite forallb_forall. split.
  - intros H kt Hkt%list_elem_of_In. apply H in Hkt.
    apply andb_prop in Hkt as [Hh Hr]. by apply negb_true_iff in Hh.
  - intros H kt Hkt%list_elem_of_In. destruct (H kt Hkt) as [Hh Hr].
    by rewrite Hh, Hr.
Qed.

(** The loop of [_flatten] on the fields of an object, as long as every
    flattened child is resolved: a field is still to be visited, or it is
    not to be hoisted and its subtree is resolved. *)
Lemma fold_resolved n visit :
  (forall cs,
     distinct_names (TObj cs) = true -> fits n (TObj cs) ->
     distinct_names (TObj (visit cs)) = true
     /\ fits n (TObj (visit cs)) /\ all_fit n (visit cs)
     /\ resolved (TObj (visit cs)) = true) ->
  forall ks acc,
    NoDup (Obj.names acc) ->
    Forall (fun kt => distinct_names (snd kt) = true /\ fits n (snd kt)) acc ->
    (forall kt, kt ∈ acc ->
       fst kt ∈ ks \/ (hoists kt = false /\ resolved (snd kt) = true)) ->
    let acc' := fold_left (step_tree visit) ks acc in
    NoDup (Obj.names acc')
    /\ Forall (fun kt => distinct_names (snd kt) = true /\ fits n (snd kt)) acc'
    /\ forall kt, kt ∈ acc' -> hoists kt = false /\ resolved (snd kt) = true.
Proof.
  intros Hvisit. induction ks as [|k ks IH]; intros acc Hnd Hall Hinv.
  { simpl. split; [exact Hnd|]. split; [exact Hall|].
    intros kt Hkt. destruct (Hinv kt Hkt) as [Hin|Hgood]; [|exact Hgood].
    by apply not_elem_of_nil in Hin. }
  cbn [fold_left]. apply IH; unfold step_tree.
  - destruct (Obj.get k acc) as [[p|cs]|]; try exact Hnd.
    destruct (is_marker (Some k)).
    + by apply NoDup_names_delete, NoDup_names_assign.
    + by apply NoDup_names_set.
  - destruct (Obj.get k acc) as [[p|cs]|] eqn:Hget; try exact Hall.
    destruct (get_Forall _ _ _ _ Hall Hget) as [Hdcs Hfcs]. simpl in Hdcs, Hfcs.
    destruct (Hvisit cs Hdcs Hfcs) as (Hd' & Hf' & Hall' & _).
    assert (Hcs' : Forall (fun kt => distinct_names (snd kt) = true
                                     /\ fits n (snd kt)) (visit cs)).
    { apply distinct_names_obj in Hd' as [_ Hd'].
      apply Forall_forall. intros kt Hkt. split.
      - rewrite Forall_forall in Hd'. by apply Hd'.
      - unfold all_fit in Hall'. rewrite Forall_forall in Hall'.
        by apply Hall'. }
    destruct (is_marker (Some k)).
    + by apply Forall_delete, Forall_assign.
    + apply Forall_set; [exact Hall|]. by split.
  - intros kt Hkt.
    assert (Hold : kt ∈ acc -> fst kt <> k ->
                   fst kt ∈ ks \/ (hoists kt = false /\ resolved (snd kt) = true)).
    { intros Hin Hne. destruct (Hinv kt Hin) as [[Heq|Hks]%elem_of_cons|Hgood];
        [contradiction|by left|by right]. }
    destruct (Obj.get k acc) as [[p|cs]|] eqn:Hget.
    + (* a primitive under [k] *)
      destruct (decide (fst kt = k)) as [Heq|Hne]; [|by apply Hold].
      right. destruct kt as [k' t']. simpl in Heq. subst k'.
      rewrite (elem_of_get_NoDup k t' acc Hnd Hkt) in Hget.
      injection Hget as ->. split; [|reflexivity].
      unfold hoists. simpl. apply andb_false_r.
    + (* an object under [k] *)
      destruct (get_Forall _ _ _ _ Hall Hget) as [Hdcs Hfcs].
      simpl in Hdcs, Hfcs.
      destruct (Hvisit cs Hdcs Hfcs) as (_ & _ & _ & Hres).
      rewrite resolved_obj in Hres.
      destruct (is_marker (Some k)) eqn:Hm.
      * apply elem_of_delete_ne in Hkt as [Hkt Hne].
        apply elem_of_assign in Hkt as [Hkt|Hkt]; [by apply Hold|].
        right. by apply Hres.
      * apply (elem_of_set_NoDup _ _ _ _ Hnd) in Hkt as [->|[Hkt Hne]];
          [|by apply Hold].
        right. split.
        -- unfold hoists. cbn [fst snd]. by rewrite Hm.
        -- by apply resolved_obj.
    + (* nothing under [k] *)
      destruct (decide (fst kt = k)) as [Heq|Hne]; [|by apply Hold].
      exfalso. apply get_None_names_inv in Hget. apply Hget.
      rewrite <- Heq. by apply elem_of_names.
Qed.

Lemma visit_resolved n :
  forall fs,
    distinct_names (TObj fs) = true -> all_fit n fs ->
    distinct_names (TObj (visit_tree (S n) fs)) = true
    /\ resolved (TObj (visit_tree (S n) fs)) = true.
Proof.
  induction n as [|n IH]; intros fs Hdn Hfit.
  { unfold all_fit in Hfit. destruct fs as [|kt fs]; [by split|].
    apply Forall_cons in Hfit as [[] _]. }
  apply distinct_names_obj in Hdn as [Hnd Hall].
  destruct (fold_resolved (S n) (visit_tree (S n))) with
    (ks := Obj.names fs) (acc := fs) as (Hnd' & Hall' & Hres').
  - intros cs Hdcs Hfcs. simpl in Hfcs.
    destruct (IH cs Hdcs Hfcs) as [Hd' Hr'].
    pose proof (visit_fits n cs Hfcs) as Hf'.
    split; [exact Hd'|]. split; [exact Hf'|]. split; [|exact Hr'].
    apply (all_fit_mono n); [exact Hf'|lia].
  - exact Hnd.
  - apply Forall_forall. intros kt Hkt. split.
    + rewrite Forall_forall in Hall. by apply Hall.
    + unfold all_fit in Hfit. rewrite Forall_forall in Hfit. by apply Hfit.
  - intros kt Hkt. left. by apply elem_of_names.
  - cbn [visit_tree]. split.
    + apply distinct_names_intro; [exact Hnd'|].
      eapply Forall_impl; [exact Hall'|]. by intros kt [? _].
    + by apply resolved_obj.
Qed.

Lemma flatten_tree_resolved fuel t :
  distinct_names t = true -> fits fuel t ->
  resolved (flatten_tree fuel t) = true.
Proof.
  intros Hdn Hfit. destruct t as [p|fs]; [reflexivity|].
  destruct fuel as [|n]; [contradiction|]. simpl in Hfit.
  cbn [flatten_tree]. by apply visit_resolved.
Qed.



(** ** Cancelling *)

Lemma repr_allocated_both (h : gmap loc obj) :
  (forall v t F, repr h v t F -> repr h v t (F ∩ dom h))
  /\ (forall o fs F, repr_fields h o fs F -> repr_fields h o fs (F ∩ dom h)).
Proof.
  assert (Hobj : forall l o fs F,
    l ∈ F -> h !! l = Some o -> NoDup (Obj.names o) ->
    repr_fields h o fs (F ∖ {[l]}) ->
    repr_fields h o fs ((F ∖ {[l]}) ∩ dom h) ->
    repr h (VRef l) (TObj fs) (F ∩ dom h)).
  { intros l o fs F Hl Ho Hnd _ IH. econstructor; eauto.
    - apply elem_of_intersection. split; [exact Hl|].
      apply elem_of_dom. by eexists.
    - eapply repr_fields_weaken; [exact IH|]. set_solver. }
  assert (Hcons : forall k v t o fs F1 F2 F,
    repr h v t F1 -> repr h v t (F1 ∩ dom h) ->
    repr_fields h o fs F2 -> repr_fields h o fs (F2 ∩ dom h) ->
    F1 ## F2 -> F1 ∪ F2 ⊆ F ->
    repr_fields h ((k, v) :: o) ((k, t) :: fs) (F ∩ dom h)).
  { intros k v t o fs F1 F2 F _ IH1 _ IH2 Hd Hs.
    econstructor; [exact IH1|exact IH2|set_solver|set_solver]. }
  split.
  - apply (repr_mutual h (fun v t F => repr h v t (F ∩ dom h))
             (fun o fs F => repr_fields h o fs (F ∩ dom h)));
      [intros; constructor|exact Hobj|intros; constructor|exact Hcons].
  - apply (repr_fields_mutual h (fun v t F => repr h v t (F ∩ dom h))
             (fun o fs F => repr_fields h o fs (F ∩ dom h)));
      [intros; constructor|exact Hobj|intros; constructor|exact Hcons].
Qed.

(** C5: when the form value stands for a tree of fields, [submitted] with
    the cancel flag returns, and the log has grown by exactly one event,
    the cancel event; no request is logged.  The data of the event is a
    new object, and it stands for the flattened tree of the form value,
    with [true] under the action id when one is present. *)
Theorem cancel_emits_flattened_snapshot
    (delivered : event -> list value) (fuel : nat)
    (config : DjangoFormConfig) (button_id : option string)
    (c : component) (fs : list (string * tree)) (F : gset loc) :
  repr (heap c) (VRef (form_value c)) (TObj fs) F ->
  depth (TObj fs) < fuel ->
  let value := fresh (dom (heap c)) in
  exists c',
    submitted delivered fuel config button_id true c = Returned c'
    /\ log c' = log c ++ [EmitCancel (VRef value)]
    /\ (value ∉ dom (heap c))
    /\ repr (heap c') (VRef value)
         (TObj (with_action button_id (visit_tree fuel fs)))
         ({[value]} ∪ F).
Proof.
  intros Hrepr Hfit%fits_depth_lt value.
  assert (Hfresh : value ∉ dom (heap c)) by apply is_fresh.
  apply (proj1 (repr_allocated_both (heap c))) in Hrepr.
  inversion Hrepr as [|? live ? ? Hl Hlive Hnd Hrf]; subst.
  set (G := (F ∩ dom (heap c)) ∖ {[form_value c]}) in *.
  assert (HvG : value ∉ G) by set_solver.
  set (h0 := <[value := Obj.assign [] live]> (heap c)).
  assert (Hcopy : Obj.assign [] live = live).
  { rewrite assign_disjoint; [reflexivity|exact Hnd|].
    intros x _. apply not_elem_of_nil. }
  assert (Hr0 : repr h0 (VRef value) (TObj fs) ({[value]} ∪ G)).
  { apply (repr_obj _ value live fs).
    - set_solver.
    - unfold h0. by rewrite lookup_insert_eq, Hcopy.
    - exact Hnd.
    - apply (repr_fields_weaken _ _ _ G); [|set_solver].
      eapply repr_fields_frame; [exact Hrf|].
      intros l Hl'. unfold h0. rewrite lookup_insert_ne; [done|].
      intros <-. contradiction. }
  destruct (flatten_repr fuel h0 (VRef value) (TObj fs) _ Hr0 Hfit) as
    (h1 & Hrun & Hr1 & _).
  cbn [flatten_tree] in Hr1.
  inversion Hr1 as [|? o ? ? _ Ho Hndo Hrfo]; subst.
  unfold submitted. rewrite Hlive. fold value. fold h0. rewrite Hrun, Ho.
  eexists. split; [reflexivity|]. split; [reflexivity|].
  split; [exact Hfresh|]. cbn [heap record with_heap]. unfold with_action.
  apply (repr_weaken _ _ _ ({[value]} ∪ G)); [|set_solver].
  destruct (present button_id) as [b|]; [|exact Hr1].
  apply (repr_obj _ value (Obj.set b (VPrim (PBool true)) o)).
  - set_solver.
  - apply lookup_insert_eq.
  - by apply NoDup_names_set.
  - eapply repr_fields_weaken.
    + apply (repr_fields_set _ b o (visit_tree fuel fs)
               (({[value]} ∪ G) ∖ {[value]}) (VPrim (PBool true))
               (TPrim (PBool true)) ∅).
      * eapply repr_fields_frame; [exact Hrfo|].
        intros l Hl'. rewrite lookup_insert_ne; [done|]. set_solver.
      * constructor.
      * set_solver.
    + set_solver.
Qed.

Lemma cancel_emits_flattened_snapshot_witness :
  let c := payload_one_component in
  let value := fresh (dom (heap c)) in
  exists c',
    submitted (fun _ => []) 3 post_config (Some "save") true c = Returned c'
    /\ log c' = log c ++ [EmitCancel (VRef value)]
    /\ (value ∉ dom (heap c))
    /\ repr (heap c') (VRef value)
         (TObj (with_action (Some "save")
                  (visit_tree 3 (fields_of payload_one))))
         ({[value]} ∪ {[0; 1]}).
Proof.
  apply (cancel_emits_flattened_snapshot (fun _ => []) 3 post_config
           (Some "save") payload_one_component (fields_of payload_one)
           {[0; 1]}).
  - apply (repr_obj _ 1 [("a", int 1); ("generated_x", VRef 0)]);
      [set_solver|reflexivity|apply (bool_decide_unpack _); by vm_compute|].
    apply (repr_cons _ "a" _ _ _ _ ∅ {[0]}); [constructor| |set_solver..].
    apply (repr_cons _ "generated_x" _ _ _ _ {[0]} ∅);
      [|constructor|set_solver..].
    apply (repr_obj _ 0 [("b", int 2); ("c", int 3)]);
      [set_solver|reflexivity|apply (bool_decide_unpack _); by vm_compute|].
    apply (repr_cons _ "b" _ _ _ _ ∅ ∅); [constructor| |set_solver..].
    apply (repr_cons _ "c" _ _ _ _ ∅ ∅); [constructor|constructor|set_solver..].
  - simpl. lia.
Defined.

(** * Further properties *)

(** ** The form description *)

Lemma ends_with_slash_app u : ends_with_slash (u ++ "/")%string = true.
Proof.
  induction u as [|c u IH]; [reflexivity|].
  destruct u as [|a u]; [reflexivity|]. exact IH.
Qed.

Lemma append_assoc_string (a b c : string) :
  ((a ++ b) ++ c = a ++ (b ++ c))%string.
Proof.
  induction a as [|x a IH]; [reflexivity|].
  change (String x ((a ++ b) ++ c) = String x (a ++ (b ++ c)))%string.
  by f_equal.
Qed.

(** A trailing slash on the url makes no difference to the request of
    [_download_django_form]: with or without it the form description is
    asked of the url followed by "/form/", with the extra form data as
    parameters. *)
Theorem download_normalizes_trailing_slash
    (delivered_form : string -> extra_data -> list obj)
    (url : string) (c : component) :
  ends_with_slash url = false ->
  fst (_download_django_form delivered_form (url ++ "/")%string c)
    = fst (_download_django_form delivered_form url c)
  /\ fst (_download_django_form delivered_form url c)
     = ((url ++ "/form/")%string, extra_form_data c).
Proof.
  intros Hend. unfold _download_django_form, form_url. cbn [fst].
  rewrite ends_with_slash_app, Hend. split; [reflexivity|].
  f_equal. exact (append_assoc_string url "/" "form/").
Qed.

Lemma download_normalizes_trailing_slash_witness :
  fst (_download_django_form (fun _ _ => []) ("/api/item" ++ "/")%string
         shared_key_component)
    = fst (_download_django_form (fun _ _ => []) "/api/item"
             shared_key_component)
  /\ fst (_download_django_form (fun _ _ => []) "/api/item"
            shared_key_component)
     = (("/api/item" ++ "/form/")%string,
        extra_form_data shared_key_component).
Proof.
  apply (download_normalizes_trailing_slash (fun _ _ => []) "/api/item"
           shared_key_component).
  reflexivity.
Defined.

(** Every configuration that [_download_django_form] delivers answers
    property reads as the configuration of the server does, except that
    [django_url], when the server sent none, is the url the component was
    given (as given, not the url requested). *)
Theorem download_fills_django_url
    (delivered_form : string -> extra_data -> list obj)
    (url : string) (c : component) :
  Forall (fun config : obj => NoDup (Obj.names config))
    (delivered_form (form_url url) (extra_form_data c)) ->
  Forall2
    (fun (config result : obj) =>
       forall k,
         Obj.get k result =
           match Obj.get k config with
           | Some v => Some v
           | None =>
               if String.eqb k "django_url" then Some (VPrim (PStr url))
               else None
           end)
    (delivered_form (form_url url) (extra_form_data c))
    (snd (_download_django_form delivered_form url c)).
Proof.
  unfold _download_django_form. cbn [snd].
  induction 1 as [|config configs Hnd _ IH]; simpl; constructor; [|exact IH].
  intros k. unfold with_django_url. rewrite get_assign by exact Hnd.
  destruct (Obj.get k config); [reflexivity|]. simpl.
  destruct (String.eqb k "django_url"); reflexivity.
Qed.

Lemma download_fills_django_url_witness :
  Forall2
    (fun (config result : obj) =>
       forall k,
         Obj.get k result =
           match Obj.get k config with
           | Some v => Some v
           | None =>
               if String.eqb k "django_url" then Some (VPrim (PStr "/api"))
               else None
           end)
    ((fun _ _ => [[("method", str "post")]]) (form_url "/api")
       (extra_form_data shared_key_component))
    (snd (_download_django_form (fun _ _ => [[("method", str "post")]])
            "/api" shared_key_component)).
Proof.
  apply (download_fills_django_url (fun _ _ => [[("method", str "post")]])
           "/api" shared_key_component).
  repeat constructor. by intros ?%not_elem_of_nil.
Defined.

(** ** The extra parameters *)





(** ** The action list, further *)

Lemma generate_from_unreadable pre a post ret :
  Forall readable pre -> ~ readable a ->
  exists rs,
    generate_from (pre ++ a :: post) ret = Thrown TypeError (ret ++ rs)
    /\ Forall2 (fun d r => generate_action d = Some r) pre rs.
Proof.
  intros Hpre Ha. revert ret.
  induction Hpre as [|d pre Hd _ IH]; intros ret.
  - exists []. split; [|constructor]. rewrite app_nil_r. simpl.
    assert (Hnone : generate_action a = None).
    { unfold readable in Ha. unfold generate_action.
      destruct a as [items|p|o]; try (exfalso; apply Ha; split; discriminate).
      destruct p; try (exfalso; apply Ha; split; discriminate); reflexivity. }
    by rewrite Hnone.
  - destruct (generate_from_readable [d] [] (Forall_cons_2 _ _ _ Hd (Forall_nil_2 _)))
      as (r1 & Hr1 & Hall1).
    inversion Hall1 as [|? r ? rs0 Hr Hnil]; subst. inversion Hnil; subst.
    destruct (IH (ret ++ [r])) as (rs & Hrs & Hall).
    exists (r :: rs). split; [|by constructor].
    simpl. rewrite Hr, Hrs, <- app_assoc. reflexivity.
Qed.

(** A descriptor that is [null] or [undefined] makes [_generate_actions]
    throw a TypeError; what [ret] holds then are the records of the
    descriptors before it, and none is returned. *)
Theorem generate_actions_throws_on_null
    (pre : list descriptor) (a : descriptor) (post : list descriptor) :
  Forall readable pre ->
  a = DPrim PNull \/ a = DPrim PUndefined ->
  exists rs,
    _generate_actions (Some (pre ++ a :: post)) = Thrown TypeError rs
    /\ Forall2 describes pre rs.
Proof.
  intros Hpre Ha.
  destruct (generate_from_unreadable pre a post [] Hpre) as (rs & Hrs & Hall).
  { intros [Hn Hu]. destruct Ha; contradiction. }
  exists rs. split; [exact Hrs|].
  eapply Forall2_impl; [exact Hall|]. apply generate_action_describes.
Qed.

Lemma generate_actions_throws_on_null_witness :
  exists rs,
    _generate_actions
      (Some ([DPrim (PStr "save")] ++ DPrim PNull :: [DPrim (PStr "no")]))
      = Thrown TypeError rs
    /\ Forall2 describes [DPrim (PStr "save")] rs.
Proof.
  apply (generate_actions_throws_on_null [DPrim (PStr "save")] (DPrim PNull)
           [DPrim (PStr "no")]).
  - repeat constructor; discriminate.
  - by left.
Defined.

(** [_generate_actions] works descriptor by descriptor: the records of a
    list put after another are the records of the one followed by the
    records of the other. *)
Theorem generate_actions_app (a b : list descriptor) :
  Forall readable a -> Forall readable b ->
  exists ra rb,
    _generate_actions (Some a) = Returned ra
    /\ _generate_actions (Some b) = Returned rb
    /\ _generate_actions (Some (a ++ b)) = Returned (ra ++ rb).
Proof.
  intros Ha Hb.
  destruct (generate_from_readable a [] Ha) as (ra & Hra & Halla).
  destruct (generate_from_readable b [] Hb) as (rb & Hrb & Hallb).
  exists ra, rb. split; [exact Hra|]. split; [exact Hrb|].
  destruct (generate_from_readable (a ++ b) [] (Forall_app_2 _ _ _ Ha Hb))
    as (rab & Hrab & Hallab).
  simpl in *. rewrite Hrab. f_equal.
  assert (Hdet : forall (l : list descriptor) (r1 r2 : list obj),
    Forall2 (fun d r => generate_action d = Some r) l r1 ->
    Forall2 (fun d r => generate_action d = Some r) l r2 -> r1 = r2).
  { induction l as [|d l IH]; intros r1 r2 H1 H2;
      inversion H1; inversion H2; subst; [reflexivity|].
    f_equal; [congruence|eauto]. }
  apply (Hdet (a ++ b)); [exact Hallab|]. by apply Forall2_app.
Qed.

Lemma generate_actions_app_witness :
  exists ra rb,
    _generate_actions (Some [DPrim (PStr "save")]) = Returned ra
    /\ _generate_actions (Some [DArray [str "cancel"]]) = Returned rb
    /\ _generate_actions (Some ([DPrim (PStr "save")] ++ [DArray [str "cancel"]]))
       = Returned (ra ++ rb).
Proof.
  apply (generate_actions_app [DPrim (PStr "save")] [DArray [str "cancel"]]).
  - repeat constructor; discriminate.
  - repeat constructor; discriminate.
Defined.

(** ** Requests and their responses *)

Lemma log_on_responses data responses c :
  log (fold_left (on_response data) responses c) =
    log c ++ flat_map (response_events data) responses.
Proof.
  revert c. induction responses as [|r rs IH]; intros c; simpl.
  - by rewrite app_nil_r.
  - rewrite IH. simpl. by rewrite <- !app_assoc.
Qed.

Lemma fields_on_responses data responses c :
  form_value (fold_left (on_response data) responses c) = form_value c
  /\ extra_form_data (fold_left (on_response data) responses c)
     = extra_form_data c.
Proof.
  revert c. induction responses as [|r rs IH]; intros c; simpl; [by split|].
  destruct (IH (on_response data c r)) as [-> ->]. by split.
Qed.

(** With a remote target and the method "post" or "patch",
    [submit_to_django] logs the request first and then, for each response
    the request delivers, the notice and the submit event that carries
    the response and the payload, in the order delivered.  When nothing
    is delivered (a transport failure whose error stream is empty) the
    request is all that is logged: no submit event. *)
Theorem submit_events_follow_responses
    (delivered : event -> list value) (config : DjangoFormConfig)
    (data : loc) (c : component) (url m : string) (extra payload : obj) :
  present (django_url config) = Some url ->
  method config = Some m ->
  m = "post" \/ m = "patch" ->
  extra_of c = Some extra ->
  heap c !! data = Some payload ->
  let call := if String.eqb m "post"
              then HttpPost url (request_body extra payload)
              else HttpPatch url (request_body extra payload) in
  exists c',
    submit_to_django delivered config data c = Returned c'
    /\ log c' = log c ++ call :: flat_map (response_events data) (delivered call)
    /\ (delivered call = [] -> log c' = log c ++ [call]).
Proof.
  intros Hurl Hm Hpp Hex Hpay call.
  assert (Hlog : forall call0,
    log (fold_left (on_response data) (delivered call0) (record call0 c))
    = log c ++ call0 :: flat_map (response_events data) (delivered call0)).
  { intros call0. rewrite log_on_responses. simpl.
    by rewrite <- app_assoc. }
  assert (Hrun : submit_to_django delivered config data c =
                 Returned (fold_left (on_response data) (delivered call)
                             (record call c))).
  { unfold submit_to_django. rewrite Hurl, Hm, Hex, Hpay.
    destruct Hpp as [-> | ->]; reflexivity. }
  clearbody call. eexists. split; [exact Hrun|]. split; [apply Hlog|].
  intros Hnone. rewrite Hlog, Hnone. reflexivity.
Qed.

Lemma submit_events_follow_responses_witness :
  let call := if String.eqb "post" "post"
              then HttpPost "/api/item/"
                     (request_body [("token", str "t"); ("name", str "from-extra")]
                        [("name", str "from-form")])
              else HttpPatch "/api/item/"
                     (request_body [("token", str "t"); ("name", str "from-extra")]
                        [("name", str "from-form")]) in
  exists c',
    submit_to_django (fun _ => [int 1; int 2]) post_config 1
      shared_key_component = Returned c'
    /\ log c' = log shared_key_component
                ++ call :: flat_map (response_events 1)
                             ((fun _ => [int 1; int 2]) call)
    /\ ((fun _ : event => [int 1; int 2]) call = [] ->
        log c' = log shared_key_component ++ [call]).
Proof.
  apply (submit_events_follow_responses (fun _ => [int 1; int 2]) post_config
           1 shared_key_component "/api/item/" "post"
           [("token", str "t"); ("name", str "from-extra")]
           [("name", str "from-form")]).
  - reflexivity.
  - reflexivity.
  - by left.
  - reflexivity.
  - reflexivity.
Defined.

(** Whatever the configuration, [submit_to_django] writes no object and
    changes neither the form value nor the extra form data of the
    component: when it returns or throws, only the log may have changed,
    and it has only grown. *)
Theorem submit_changes_only_the_log
    (delivered : event -> list value) (config : DjangoFormConfig)
    (data : loc) (c c' : component) :
  submit_to_django delivered config data c = Returned c'
  \/ (exists e, submit_to_django delivered config data c = Thrown e c') ->
  heap c' = heap c
  /\ form_value c' = form_value c
  /\ extra_form_data c' = extra_form_data c
  /\ exists events, log c' = log c ++ events.
Proof.
  intros Hrun. split; [exact (heap_submit_to_django _ _ _ _ _ Hrun)|].
  revert Hrun. unfold submit_to_django.
  assert (Hsend : forall call,
    let c1 := fold_left (on_response data) (delivered call) (record call c) in
    form_value c1 = form_value c
    /\ extra_form_data c1 = extra_form_data c
    /\ exists events, log c1 = log c ++ events).
  { intros call c1. unfold c1.
    destruct (fields_on_responses data (delivered call) (record call c))
      as [-> ->].
    split; [reflexivity|]. split; [reflexivity|].
    rewrite log_on_responses. simpl. rewrite <- app_assoc. by eexists. }
  assert (Hsame : form_value c = form_value c
                  /\ extra_form_data c = extra_form_data c
                  /\ exists events, log c = log c ++ events).
  { split; [reflexivity|]. split; [reflexivity|]. exists [].
    by rewrite app_nil_r. }
  destruct (present (django_url config)) as [url|];
    [destruct (method config) as [m|];
       [destruct (String.eqb m "post"); [|destruct (String.eqb m "patch")];
          try destruct (extra_of c), (heap c !! data)|]|];
    intros [H|[e H]]; try discriminate;
    first [ injection H as <-; first [apply Hsend | exact Hsame]
          | injection H as _ <-; exact Hsame
          | idtac ].
  injection H as <-. split; [reflexivity|]. split; [reflexivity|].
  by eexists.
Qed.

Lemma submit_changes_only_the_log_witness :
  heap (record (EmitSubmit (VRef 1) None) shared_key_component)
    = heap shared_key_component
  /\ form_value (record (EmitSubmit (VRef 1) None) shared_key_component)
     = form_value shared_key_component
  /\ extra_form_data (record (EmitSubmit (VRef 1) None) shared_key_component)
     = extra_form_data shared_key_component
  /\ exists events,
       log (record (EmitSubmit (VRef 1) None) shared_key_component)
       = log shared_key_component ++ events.
Proof.
  apply (submit_changes_only_the_log (fun _ => [])
           {| django_url := None; method := None; has_initial_data := false;
              initial_data := None; backend_fields := [] |}
           1 shared_key_component).
  left. reflexivity.
Defined.

(** ** Flattening, further *)

Lemma for_each_preserves {S : Type} (P : S -> Prop)
    (body : string -> S -> run S) (ks : list string) :
  (forall k s s', body k s = Returned s' -> P s -> P s') ->
  forall s s', for_each ks body s = Returned s' -> P s -> P s'.
Proof.
  intros Hbody. induction ks as [|k ks IH]; intros s s'; simpl.
  - by intros [= <-].
  - destruct (body k s) as [s1| | |] eqn:Hk; try discriminate.
    cbn [bind]. intros Hrest Hs. eapply IH; [exact Hrest|].
    by eapply Hbody.
Qed.

Lemma names_distinct_insert (h : gmap loc obj) p o :
  names_distinct h -> NoDup (Obj.names o) -> names_distinct (<[p := o]> h).
Proof. intros Hh Ho. by apply map_Forall_insert_2. Qed.

Lemma hoist_names_distinct n c parent (h h' : gmap loc obj) :
  hoist n c parent h = Returned h' -> names_distinct h -> names_distinct h'.
Proof.
  unfold hoist. destruct parent as [p|]; [|discriminate].
  destruct (h !! c) as [o|]; [|discriminate].
  destruct (for_each (Obj.names o) _ h) as [h2| | |] eqn:Hloop;
    try discriminate.
  cbn [bind]. destruct (h2 !! p) as [op|] eqn:Hop; [|discriminate].
  intros [= <-] Hh.
  assert (Hh2 : names_distinct h2).
  { eapply (for_each_preserves names_distinct); [|exact Hloop|exact Hh].
    intros k s s'. cbv beta.
    destruct (s !! c) as [oc|]; [|discriminate].
    destruct (s !! p) as [op0|] eqn:Hp0; [|discriminate].
    intros [= <-] Hs. apply names_distinct_insert; [exact Hs|].
    apply NoDup_names_set. exact (Hs p op0 Hp0). }
  apply names_distinct_insert; [exact Hh2|].
  apply NoDup_names_delete. exact (Hh2 p op Hop).
Qed.

Lemma flatten_names_distinct fuel :
  forall name cur parent (h h' : gmap loc obj),
    _flatten fuel name cur parent h = Returned h' ->
    names_distinct h -> names_distinct h'.
Proof.
  induction fuel as [|fuel IH]; intros name cur parent h h'; [discriminate|].
  cbn [_flatten]. destruct cur as [q|c]; [by intros [= <-]|].
  destruct (h !! c) as [o|]; [|discriminate].
  destruct (for_each (Obj.names o) _ h) as [h2| | |] eqn:Hloop;
    try discriminate.
  cbn [bind]. intros Hrest Hh.
  assert (Hh2 : names_distinct h2).
  { eapply (for_each_preserves names_distinct); [|exact Hloop|exact Hh].
    intros k s s'. cbv beta. destruct (s !! c) as [oc|]; [|discriminate].
    apply IH. }
  destruct name as [n|]; [|by injection Hrest as <-].
  destruct (is_marker (Some n)); [|by injection Hrest as <-].
  by eapply hoist_names_distinct.
Qed.

(** On an acyclic heap [_flatten], called as [submitted] calls it, returns
    once the fuel exceeds the rank of the object by two.  It creates and
    removes no object, leaves the heap acyclic under the same ranks, keeps
    own property names distinct where they were, and writes only the
    object itself and objects ranked below it. *)
Theorem flatten_returns_on_acyclic_heap
    (rk : loc -> nat) (fuel : nat) (c : loc) (h : gmap loc obj) :
  ranked rk h ->
  is_Some (h !! c) ->
  S (S (rk c)) <= fuel ->
  exists h',
    _flatten fuel None (VRef c) None h = Returned h'
    /\ ranked rk h'
    /\ dom h' = dom h
    /\ (names_distinct h -> names_distinct h')
    /\ forall l, l <> c -> ~ rk l < rk c -> h' !! l = h !! l.
Proof.
  intros Hr Hc Hfuel.
  destruct (flatten_ranked rk fuel None (VRef c) None h Hr) as
    (h' & Hrun & Hr' & Hdom & Hframe).
  - exact Hfuel.
  - by intros c0 [= <-].
  - discriminate.
  - exists h'. split; [exact Hrun|]. split; [exact Hr'|]. split; [|split].
    + apply set_eq. intros l. rewrite !elem_of_dom. apply Hdom.
    + by apply (flatten_names_distinct fuel None (VRef c) None h h').
    + intros l Hl Hrk. apply Hframe; [|discriminate].
      by intros c0 [= <-].
Qed.

Lemma flatten_returns_on_acyclic_heap_witness :
  exists h',
    _flatten 4 None (VRef 2) None (heap nested_marker_component) = Returned h'
    /\ ranked (fun l => l) h'
    /\ dom h' = dom (heap nested_marker_component)
    /\ (names_distinct (heap nested_marker_component) -> names_distinct h')
    /\ forall l, l <> 2 -> ~ l < 2 ->
                 h' !! l = heap nested_marker_component !! l.
Proof.
  apply (flatten_returns_on_acyclic_heap (fun l => l) 4 2
           (heap nested_marker_component)).
  - apply (bool_decide_unpack (ranked _ _)). vm_compute. exact I.
  - by eexists.
  - simpl. lia.
Defined.

(** On an object whose first own property refers to the object itself,
    [_flatten] does not return, whatever the fuel: the loop calls
    [_flatten] on the same object again. *)
Theorem flatten_never_returns_on_self_reference
    (h : gmap loc obj) (c : loc) (k : string) (o : obj) (fuel : nat)
    (name : option string) (parent : option loc) :
  h !! c = Some ((k, VRef c) :: o) ->
  _flatten fuel name (VRef c) parent h = OutOfFuel.
Proof.
  intros Hc. revert name parent.
  induction fuel as [|fuel IH]; intros name parent; [reflexivity|].
  cbn [_flatten]. rewrite Hc. cbn [Obj.names map fst for_each]. rewrite Hc.
  assert (Hread : Obj.read ((k, VRef c) :: o) k = VRef c).
  { unfold Obj.read. simpl. by rewrite String.eqb_refl. }
  rewrite Hread, IH. reflexivity.
Qed.

Lemma flatten_never_returns_on_self_reference_witness :
  _flatten 50 None (VRef 0) None self_heap = OutOfFuel.
Proof.
  apply (flatten_never_returns_on_self_reference self_heap 0 "self"
           [("a", int 1)] 50 None None).
  reflexivity.
Defined.



(** ** Flattening twice, and colliding names *)


Lemma visit_resolved_id n :
  forall fs, resolved (TObj fs) = true -> visit_tree n fs = fs.
Proof.
  induction n as [|n IH]; intros fs Hres; [reflexivity|].
  cbn [visit_tree]. generalize (Obj.names fs) as ks.
  induction ks as [|k ks IHks]; [reflexivity|]. cbn [fold_left].
  assert (Hstep : step_tree (visit_tree n) fs k = fs); [|by rewrite Hstep].
  unfold step_tree. destruct (Obj.get k fs) as [[p|cs]|] eqn:Hget;
    try reflexivity.
  destruct (proj1 (resolved_obj fs) Hres (k, TObj cs) (get_elem_of _ _ _ Hget))
    as [Hh Hcs].
  unfold hoists in Hh. cbn [fst snd] in Hh, Hcs.
  rewrite andb_true_r in Hh. rewrite Hh, (IH cs Hcs).
  by apply set_get_id.
Qed.

Lemma flatten_tree_resolved_id fuel t :
  resolved t = true -> flatten_tree fuel t = t.
Proof.
  destruct t as [p|fs]; [reflexivity|]. intros Hres.
  cbn [flatten_tree]. by rewrite visit_resolved_id.
Qed.

(** A payload tree with no object under a marker name flattens to itself:
    in particular a field under a marker name that holds a primitive is
    neither hoisted nor deleted. *)
Theorem flatten_keeps_marker_primitives (t : tree) (fuel : nat) :
  distinct_names t = true ->
  resolved t = true ->
  depth t < fuel ->
  flatten_payload fuel t = Some t.
Proof.
  intros Hdn Hres Hfit%fits_depth_lt.
  rewrite (flatten_payload_tree fuel t Hdn Hfit).
  by rewrite flatten_tree_resolved_id.
Qed.

Lemma flatten_keeps_marker_primitives_witness :
  flatten_payload 2 (TObj [("generated_x", TPrim (PNum 5)); ("a", TPrim PNull)])
  = Some (TObj [("generated_x", TPrim (PNum 5)); ("a", TPrim PNull)]).
Proof.
  apply (flatten_keeps_marker_primitives
           (TObj [("generated_x", TPrim (PNum 5)); ("a", TPrim PNull)]) 2).
  - vm_compute. reflexivity.
  - reflexivity.
  - simpl. lia.
Defined.

(** Flattening is idempotent: on every payload tree, flattening what
    flattening returned returns it unchanged. *)
Theorem flatten_idempotent (t : tree) (fuel : nat) :
  distinct_names t = true ->
  depth t < fuel ->
  exists t',
    flatten_payload fuel t = Some t'
    /\ flatten_payload fuel t' = Some t'.
Proof.
  intros Hdn Hfit%fits_depth_lt. exists (flatten_tree fuel t).
  split; [by apply flatten_payload_tree|].
  assert (Hres : resolved (flatten_tree fuel t) = true)
    by (by apply flatten_tree_resolved).
  assert (Hgood : distinct_names (flatten_tree fuel t) = true
                  /\ fits fuel (flatten_tree fuel t)).
  { destruct t as [p|fs]; [by split|].
    destruct fuel as [|n]; [contradiction|]. simpl in Hfit.
    cbn [flatten_tree]. split.
    - by apply visit_resolved.
    - exact (visit_fits n fs Hfit). }
  destruct Hgood as [Hdn' Hfit'].
  rewrite (flatten_payload_tree fuel _ Hdn' Hfit').
  by rewrite flatten_tree_resolved_id.
Qed.

Lemma flatten_idempotent_witness :
  exists t',
    flatten_payload 4 payload_two = Some t'
    /\ flatten_payload 4 t' = Some t'.
Proof.
  apply (flatten_idempotent payload_two 4).
  - vm_compute. reflexivity.
  - simpl. lia.
Defined.






(** ** Submitting a form value that is a tree *)

Lemma repr_fields_get_prim (h : gmap loc obj) o fs F k p :
  repr_fields h o fs F -> Obj.get k fs = Some (TPrim p) ->
  Obj.get k o = Some (VPrim p).
Proof.
  intros Hrf Hget. destruct (Obj.get k o) as [v|] eqn:Hv.
  - destruct (repr_fields_get h k o fs F v Hrf Hv) as
      (t & Fv & Frest & Hgt & Hrv & _).
    rewrite Hget in Hgt. injection Hgt as <-. by inversion Hrv.
  - rewrite (repr_fields_get_None h o fs F k Hrf Hv) in Hget. discriminate.
Qed.

(** [submitted] up to its last statement: the copy of the form value has
    been flattened and the action id set in it; objects outside the form
    value are as they were. *)
Lemma submitted_on_tree
    (delivered : event -> list value) (fuel : nat)
    (config : DjangoFormConfig) (button_id : option string)
    (is_cancel : bool) (c : component) (fs : list (string * tree))
    (F : gset loc) :
  repr (heap c) (VRef (form_value c)) (TObj fs) F ->
  depth (TObj fs) < fuel ->
  let value := fresh (dom (heap c)) in
  exists h2,
    submitted delivered fuel config button_id is_cancel c =
      (if is_cancel
       then Returned (record (EmitCancel (VRef value)) (with_heap c h2))
       else submit_to_django delivered config value (with_heap c h2))
    /\ repr h2 (VRef value)
         (TObj (with_action button_id (visit_tree fuel fs)))
         ({[value]} ∪ F)
    /\ forall l, l ∉ F -> l <> value -> h2 !! l = heap c !! l.
Proof.
  intros Hrepr Hfit%fits_depth_lt value.
  assert (Hfresh : value ∉ dom (heap c)) by apply is_fresh.
  apply (proj1 (repr_allocated_both (heap c))) in Hrepr.
  inversion Hrepr as [|? live ? ? Hl Hlive Hnd Hrf]; subst.
  set (G := (F ∩ dom (heap c)) ∖ {[form_value c]}) in *.
  assert (HvG : value ∉ G) by set_solver.
  set (h0 := <[value := Obj.assign [] live]> (heap c)).
  assert (Hcopy : Obj.assign [] live = live).
  { rewrite assign_disjoint; [reflexivity|exact Hnd|].
    intros x _. apply not_elem_of_nil. }
  assert (Hr0 : repr h0 (VRef value) (TObj fs) ({[value]} ∪ G)).
  { apply (repr_obj _ value live fs).
    - set_solver.
    - unfold h0. by rewrite lookup_insert_eq, Hcopy.
    - exact Hnd.
    - apply (repr_fields_weaken _ _ _ G); [|set_solver].
      eapply repr_fields_frame; [exact Hrf|].
      intros l Hl'. unfold h0. rewrite lookup_insert_ne; [done|].
      intros <-. contradiction. }
  destruct (flatten_repr fuel h0 (VRef value) (TObj fs) _ Hr0 Hfit) as
    (h1 & Hrun & Hr1 & Hframe1).
  cbn [flatten_tree] in Hr1.
  inversion Hr1 as [|? o ? ? _ Ho Hndo Hrfo]; subst.
  assert (Hout : forall l, l ∉ F -> l <> value -> h1 !! l = heap c !! l).
  { intros l HlF Hlv. rewrite Hframe1 by set_solver.
    unfold h0. by rewrite lookup_insert_ne. }
  unfold submitted. rewrite Hlive. fold value. fold h0. rewrite Hrun, Ho.
  eexists. split; [reflexivity|]. unfold with_action.
  destruct (present button_id) as [b|].
  - split.
    + apply (repr_weaken _ _ _ ({[value]} ∪ G)); [|set_solver].
      apply (repr_obj _ value (Obj.set b (VPrim (PBool true)) o)).
      * set_solver.
      * apply lookup_insert_eq.
      * by apply NoDup_names_set.
      * eapply repr_fields_weaken.
        -- apply (repr_fields_set _ b o (visit_tree fuel fs)
                    (({[value]} ∪ G) ∖ {[value]}) (VPrim (PBool true))
                    (TPrim (PBool true)) ∅).
           ++ eapply repr_fields_frame; [exact Hrfo|].
              intros l Hl'. rewrite lookup_insert_ne; [done|]. set_solver.
           ++ constructor.
           ++ set_solver.
        -- set_solver.
    + intros l HlF Hlv. rewrite lookup_insert_ne by auto. by apply Hout.
  - split; [|exact Hout].
    apply (repr_weaken _ _ _ ({[value]} ∪ G)); [exact Hr1|set_solver].
Qed.

(** [submitted] without the cancel flag against a configuration with a
    remote target and the method "post" or "patch", on a form value that
    is a tree: one request is logged, then the events of its responses.
    Every primitive field of the flattened tree is in the body with its
    value, and a present action id is in the body with [true]: it wins
    over a form field and over an extra parameter of the same name. *)
Theorem submitted_posts_flattened_tree
    (delivered : event -> list value) (fuel : nat)
    (config : DjangoFormConfig) (button_id : option string)
    (c : component) (fs : list (string * tree)) (F : gset loc)
    (url m : string) :
  repr (heap c) (VRef (form_value c)) (TObj fs) F ->
  depth (TObj fs) < fuel ->
  extra_apart c F ->
  present (django_url config) = Some url ->
  method config = Some m ->
  m = "post" \/ m = "patch" ->
  let value := fresh (dom (heap c)) in
  exists body c',
    submitted delivered fuel config button_id false c = Returned c'
    /\ (let call := if String.eqb m "post" then HttpPost url body
                    else HttpPatch url body in
        log c' = log c ++ call :: flat_map (response_events value)
                                    (delivered call))
    /\ (forall k p,
          Obj.get k (with_action button_id (visit_tree fuel fs))
            = Some (TPrim p) ->
          Obj.get k body = Some (VPrim p))
    /\ (forall b, present button_id = Some b ->
                  Obj.get b body = Some (VPrim (PBool true))).
Proof.
  intros Hrepr Hfit Hextra Hurl Hm Hpp value.
  destruct (submitted_on_tree delivered fuel config button_id false c fs F
              Hrepr Hfit) as (h2 & Hsub & Hr2 & Hframe2).
  fold value in Hsub, Hr2, Hframe2. cbv iota in Hsub.
  inversion Hr2 as [|? o ? ? _ Ho Hndo Hrfo]; subst.
  assert (Hex : exists extra, extra_of (with_heap c h2) = Some extra).
  { unfold extra_of, extra_apart in *. cbn [extra_form_data heap with_heap].
    destruct (extra_form_data c) as [|ps|l]; [by eexists|by eexists|].
    destruct Hextra as [HlF [ol Hol]]. exists ol.
    rewrite Hframe2; [exact Hol|exact HlF|].
    intros ->. pose proof (is_fresh (dom (heap c))) as Hfresh.
    apply Hfresh. apply elem_of_dom. by eexists. }
  destruct Hex as [extra Hex].
  assert (Hbody : forall k p,
    Obj.get k (with_action button_id (visit_tree fuel fs)) = Some (TPrim p) ->
    Obj.get k (request_body extra o) = Some (VPrim p)).
  { intros k p Hk. unfold request_body. rewrite get_assign by exact Hndo.
    by rewrite (repr_fields_get_prim _ _ _ _ k p Hrfo Hk). }
  set (call := if String.eqb m "post" then HttpPost url (request_body extra o)
               else HttpPatch url (request_body extra o)).
  exists (request_body extra o),
    (fold_left (on_response value) (delivered call)
       (record call (with_heap c h2))).
  split; [|split; [|split]].
  - rewrite Hsub. unfold submit_to_django. rewrite Hurl, Hm, Hex.
    cbn [heap with_heap]. rewrite Ho. unfold call.
    destruct Hpp as [-> | ->]; reflexivity.
  - cbn zeta. fold call. rewrite log_on_responses. simpl.
    by rewrite <- app_assoc.
  - exact Hbody.
  - intros b Hb. apply Hbody. unfold with_action. rewrite Hb.
    rewrite get_set. by rewrite String.eqb_refl.
Qed.

Lemma payload_one_component_repr :
  repr (heap payload_one_component) (VRef (form_value payload_one_component))
    (TObj (fields_of payload_one)) {[0; 1]}.
Proof.
  apply (repr_obj _ 1 [("a", int 1); ("generated_x", VRef 0)]);
    [set_solver|reflexivity|apply (bool_decide_unpack _); by vm_compute|].
  apply (repr_cons _ "a" _ _ _ _ ∅ {[0]}); [constructor| |set_solver..].
  apply (repr_cons _ "generated_x" _ _ _ _ {[0]} ∅);
    [|constructor|set_solver..].
  apply (repr_obj _ 0 [("b", int 2); ("c", int 3)]);
    [set_solver|reflexivity|apply (bool_decide_unpack _); by vm_compute|].
  apply (repr_cons _ "b" _ _ _ _ ∅ ∅); [constructor| |set_solver..].
  apply (repr_cons _ "c" _ _ _ _ ∅ ∅); [constructor|constructor|set_solver..].
Defined.

Lemma submitted_posts_flattened_tree_witness :
  let c := payload_one_component in
  let value := fresh (dom (heap c)) in
  exists body c',
    submitted (fun _ => [int 7]) 3 post_config (Some "save") false c
      = Returned c'
    /\ (let call := if String.eqb "post" "post" then HttpPost "/api/item/" body
                    else HttpPatch "/api/item/" body in
        log c' = log c ++ call :: flat_map (response_events value)
                                    ((fun _ => [int 7]) call))
    /\ (forall k p,
          Obj.get k (with_action (Some "save")
                       (visit_tree 3 (fields_of payload_one)))
            = Some (TPrim p) ->
          Obj.get k body = Some (VPrim p))
    /\ (forall b, present (Some "save") = Some b ->
                  Obj.get b body = Some (VPrim (PBool true))).
Proof.
  apply (submitted_posts_flattened_tree (fun _ => [int 7]) 3 post_config
           (Some "save") payload_one_component (fields_of payload_one)
           {[0; 1]} "/api/item/" "post").
  - exact payload_one_component_repr.
  - simpl. lia.
  - exact I.
  - reflexivity.
  - reflexivity.
  - by left.
Defined.

(** [submitted] without the cancel flag against a configuration with a
    remote target and a method that is neither "post" nor "patch": the
    error is thrown after the copy has been flattened, and the log is as
    it was, so nothing is requested and nothing emitted. *)
Theorem submitted_throws_on_unsupported_method
    (delivered : event -> list value) (fuel : nat)
    (config : DjangoFormConfig) (button_id : option string)
    (c : component) (fs : list (string * tree)) (F : gset loc)
    (url : string) :
  repr (heap c) (VRef (form_value c)) (TObj fs) F ->
  depth (TObj fs) < fuel ->
  present (django_url config) = Some url ->
  method config <> Some "post" ->
  method config <> Some "patch" ->
  exists message c',
    submitted delivered fuel config button_id false c
      = Thrown (Error message) c'
    /\ log c' = log c
    /\ repr (heap c') (VRef (fresh (dom (heap c))))
         (TObj (with_action button_id (visit_tree fuel fs)))
         ({[fresh (dom (heap c))]} ∪ F).
Proof.
  intros Hrepr Hfit Hurl Hpost Hpatch.
  destruct (submitted_on_tree delivered fuel config button_id false c fs F
              Hrepr Hfit) as (h2 & Hsub & Hr2 & _).
  cbv iota zeta in Hsub. rewrite Hsub. unfold submit_to_django. rewrite Hurl.
  destruct (method config) as [m|];
    [|eexists; eexists; split; [reflexivity|]; split; [reflexivity|exact Hr2]].
  destruct (String.eqb_spec m "post") as [->|_]; [congruence|].
  destruct (String.eqb_spec m "patch") as [->|_]; [congruence|].
  eexists; eexists; split; [reflexivity|]; split; [reflexivity|exact Hr2].
Qed.

Lemma submitted_throws_on_unsupported_method_witness :
  let c := payload_one_component in
  let config := {| django_url := Some "/api/item/"; method := Some "POST";
                   has_initial_data := false; initial_data := None;
                   backend_fields := [] |} in
  exists message c',
    submitted (fun _ => [int 7]) 3 config None false c
      = Thrown (Error message) c'
    /\ log c' = log c
    /\ repr (heap c') (VRef (fresh (dom (heap c))))
         (TObj (with_action None (visit_tree 3 (fields_of payload_one))))
         ({[fresh (dom (heap c))]} ∪ {[0; 1]}).
Proof.
  apply (submitted_throws_on_unsupported_method (fun _ => [int 7]) 3 _ None
           payload_one_component (fields_of payload_one) {[0; 1]}
           "/api/item/").
  - exact payload_one_component_repr.
  - simpl. lia.
  - reflexivity.
  - discriminate.
  - discriminate.
Defined.

(** [submitted] without the cancel flag against a configuration without a
    remote target, on a form value that is a tree: the log grows by
    exactly the submit event, with no response; its data is a new object
    that stands for the flattened tree with [true] under a present action
    id. *)
Theorem submitted_without_target_emits_flattened
    (delivered : event -> list value) (fuel : nat)
    (config : DjangoFormConfig) (button_id : option string)
    (c : component) (fs : list (string * tree)) (F : gset loc) :
  repr (heap c) (VRef (form_value c)) (TObj fs) F ->
  depth (TObj fs) < fuel ->
  present (django_url config) = None ->
  let value := fresh (dom (heap c)) in
  exists c',
    submitted delivered fuel config button_id false c = Returned c'
    /\ log c' = log c ++ [EmitSubmit (VRef value) None]
    /\ repr (heap c') (VRef value)
         (TObj (with_action button_id (visit_tree fuel fs)))
         ({[value]} ∪ F).
Proof.
  intros Hrepr Hfit Hurl value.
  destruct (submitted_on_tree delivered fuel config button_id false c fs F
              Hrepr Hfit) as (h2 & Hsub & Hr2 & _).
  cbv iota zeta in Hsub. rewrite Hsub. unfold submit_to_django. rewrite Hurl.
  eexists. split; [reflexivity|]. split; [reflexivity|exact Hr2].
Qed.

Lemma submitted_without_target_emits_flattened_witness :
  let c := payload_one_component in
  let config := {| django_url := Some ""; method := None;
                   has_initial_data := false; initial_data := None;
                   backend_fields := [] |} in
  let value := fresh (dom (heap c)) in
  exists c',
    submitted (fun _ => [int 7]) 3 config (Some "ok") false c = Returned c'
    /\ log c' = log c ++ [EmitSubmit (VRef value) None]
    /\ repr (heap c') (VRef value)
         (TObj (with_action (Some "ok") (visit_tree 3 (fields_of payload_one))))
         ({[value]} ∪ {[0; 1]}).
Proof.
  apply (submitted_without_target_emits_flattened (fun _ => [int 7]) 3 _
           (Some "ok") payload_one_component (fields_of payload_one) {[0; 1]}).
  - exact payload_one_component_repr.
  - simpl. lia.
  - reflexivity.
Defined.

(** ** The configuration stream, further *)


(** ** No field is lost without collisions *)

Lemma hoists_spec_flatten k t :
  hoists (k, spec_flatten t) = hoists (k, t).
Proof. unfold hoists. by destruct t. Qed.

Lemma leaves_obj skip fs :
  leaves skip (TObj fs) =
    flat_map
      (fun kt =>
         map (fun lp => (if skip && hoists kt then fst lp
                         else fst kt :: fst lp, snd lp))
           (leaves skip (snd kt)))
      fs.
Proof. reflexivity. Qed.

(** The flattening of the specification keeps every primitive field, on
    the way that skips the hoisted names. *)
Lemma spec_flatten_leaves t :
  leaves false (spec_flatten t) ≡ₚ leaves true t.
Proof.
  induction t as [p|fs IH] using tree_ind; [reflexivity|].
  rewrite spec_flatten_obj, !leaves_obj, flat_map_app.
  induction fs as [|[k t] fs IHfs]; [reflexivity|].
  apply Forall_cons in IH as [IHt IH]. specialize (IHfs IH).
  change (spec_fields ((k, t) :: fs))
    with ((k, spec_flatten t) :: spec_fields fs).
  unfold kept, lifted in *. cbn [List.filter flat_map fst snd] in *.
  rewrite hoists_spec_flatten.
  destruct (hoists (k, t)) eqn:Hh; cbn [negb andb].
  - (* the fields of the child come up *)
    rewrite flat_map_app.
    assert (Hchild :
      flat_map
        (fun kt : string * tree =>
           map (fun lp => (fst kt :: fst lp, snd lp)) (leaves false (snd kt)))
        (fields_of (spec_flatten t))
      = leaves false (spec_flatten t)).
    { unfold hoists in Hh. cbn [fst snd] in Hh.
      destruct t as [p|cs]; [by rewrite andb_false_r in Hh|reflexivity]. }
    rewrite Hchild.
    assert (Hid : map (fun lp : list string * prim => (fst lp, snd lp))
                    (leaves true t) = leaves true t).
    { clear. induction (leaves true t) as [|[ks p] l IHl]; [reflexivity|].
      simpl. by rewrite IHl. }
    rewrite Hid, <- IHfs, IHt.
    rewrite !app_assoc. apply Permutation_app_tail, Permutation_app_comm.
  - (* the field stays *)
    cbn [flat_map fst snd]. rewrite <- app_assoc.
    apply Permutation_app; [|exact IHfs].
    by apply Permutation_map.
Qed.

(** Without collisions of names flattening loses no field and invents
    none: the primitive fields of the tree returned, each with the names
    on its way, are the primitive fields of the payload, each with the
    names on its way less the names of the hoisted groups. *)
Theorem flatten_keeps_every_field (t : tree) (fuel : nat) :
  distinct_names t = true ->
  collision_free t = true ->
  depth t < fuel ->
  exists t',
    flatten_payload fuel t = Some t'
    /\ leaves false t' ≡ₚ leaves true t.
Proof.
  intros Hdn Hcf Hfit%fits_depth_lt. exists (spec_flatten t). split.
  - rewrite (flatten_payload_tree fuel t Hdn Hfit).
    by rewrite flatten_tree_spec.
  - apply spec_flatten_leaves.
Qed.

Lemma flatten_keeps_every_field_witness :
  exists t',
    flatten_payload 3 payload_one = Some t'
    /\ leaves false t' ≡ₚ leaves true payload_one.
Proof.
  apply (flatten_keeps_every_field payload_one 3).
  - vm_compute. reflexivity.
  - vm_compute. reflexivity.
  - simpl. lia.
Defined.
